(** * PII masking (src/piiMasking.js): a shallow embedding and its properties

    The module masks personally identifiable information inside decoded
    Elasticsearch results.  It consists of a registry of five regular
    expressions ([PII_PATTERNS]), a string masker ([maskString]), a recursive
    walker ([maskObject]) and the exported entry point ([maskPII]).

    JavaScript strings are sequences of UTF-16 code units; none of the
    patterns carries the [u] or [i] flag, so the regular expressions work on
    single code units, case-sensitively.

    The first part of the file is the embedding: strings, the regular
    expressions with their backtracking matcher, [String.prototype.replace],
    the registry, the values and the three masking functions, followed by
    the notions the statements are written with.  The second part holds the
    properties: the gate, errors, per-rule flags, the documentation view,
    the shape of the result, the correctness of the matcher, masking twice,
    and the rules on the examples of the README. *)

From Stdlib Require Import String Ascii.
From Stdlib Require Import List NArith ZArith Bool Arith Lia.
From Stdlib Require Import Floats.SpecFloat.
Import ListNotations.

Set Implicit Arguments.
Set Warnings "-register-all".

(** ** Strings *)

Definition code_unit := N.
Definition jsstring := list code_unit.

(** An ASCII literal as a JavaScript string. *)
Definition u16 (s : string) : jsstring := map N_of_ascii (list_ascii_of_string s).

Definition cu (a : ascii) : code_unit := N_of_ascii a.

Definition between (lo hi u : code_unit) : bool := ((lo <=? u) && (u <=? hi))%N.
Arguments between (lo hi u)%_N.

(** [\d] is [0-9]. *)
Definition is_digit (u : code_unit) : bool := between 48 57 u.

(** [\w] is [A-Za-z0-9_]; it decides where [\b] holds. *)
Definition is_word (u : code_unit) : bool :=
  between 65 90 u || between 97 122 u || is_digit u || (u =? 95)%N.

(** [\s] is the WhiteSpace and LineTerminator code points of ECMAScript. *)
Definition is_space (u : code_unit) : bool :=
  between 9 13 u || (u =? 32)%N || (u =? 160)%N || (u =? 5760)%N
  || between 8192 8202 u || (u =? 8232)%N || (u =? 8233)%N || (u =? 8239)%N
  || (u =? 8287)%N || (u =? 12288)%N || (u =? 65279)%N.

(** ** Regular expressions

    The syntax covers what the five patterns are written with: character
    atoms and classes, [\b], sequencing, alternation, the greedy [?] on an
    arbitrary sub-pattern, and the greedy counted quantifiers [{n}], [{n,}]
    and [+], which the patterns apply to single-character atoms only. *)

Inductive class_item : Type :=
| Chr (c : ascii)            (* a literal character *)
| Range (lo hi : ascii)      (* lo-hi *)
| Digit                      (* \d *)
| Space.                     (* \s *)

Definition class := list class_item.

Definition item_mem (i : class_item) (u : code_unit) : bool :=
  match i with
  | Chr c => (u =? cu c)%N
  | Range lo hi => between (cu lo) (cu hi) u
  | Digit => is_digit u
  | Space => is_space u
  end.

Definition class_mem (cs : class) (u : code_unit) : bool :=
  existsb (fun i => item_mem i u) cs.

Inductive regex : Type :=
| Atom (cs : class)                              (* one code unit of the class *)
| WordBoundary                                   (* \b *)
| Seq (r1 r2 : regex)                            (* r1r2 *)
| Alt (r1 r2 : regex)                            (* r1|r2 *)
| Opt (r : regex)                                (* (?:r)? *)
| Rep (cs : class) (min : nat) (max : option nat). (* [cs]{min,max} *)

Declare Scope regex_scope.
Delimit Scope regex_scope with re.
Bind Scope regex_scope with regex.
Infix ";;" := Seq (at level 61, right associativity) : regex_scope.

(** [IsWordChar] of the position before ([prev]) or after (head of the rest);
    outside the string it is false. *)
Definition word_at (c : option code_unit) : bool :=
  match c with Some u => is_word u | None => false end.

Definition dec_max (max : option nat) : option nat :=
  match max with Some m => Some (pred m) | None => None end.

Section Matcher.
Variable A : Type.

(** A continuation receives the code unit before the current position and
    the rest of the input, as the matchers of the ECMAScript semantics
    receive a state. *)
Definition continuation := option code_unit -> jsstring -> option A.

(** Greedy repetition of a class: take one more code unit while allowed,
    and fall back to stopping here once [min] is reached. *)
Fixpoint repeat_class (cs : class) (min : nat) (max : option nat)
    (prev : option code_unit) (s : jsstring) (k : continuation) {struct s}
    : option A :=
  let stop := match min with O => k prev s | S _ => None end in
  match max with
  | Some O => k prev s
  | _ =>
    match s with
    | u :: s' =>
      if class_mem cs u then
        match repeat_class cs (pred min) (dec_max max) (Some u) s' k with
        | Some a => Some a
        | None => stop
        end
      else stop
    | [] => stop
    end
  end.

(** The backtracking matcher, in continuation-passing style. *)
Fixpoint matcher (r : regex) (prev : option code_unit) (s : jsstring)
    (k : continuation) {struct r} : option A :=
  match r with
  | Atom cs =>
    match s with
    | u :: s' => if class_mem cs u then k (Some u) s' else None
    | [] => None
    end
  | WordBoundary =>
    if xorb (word_at prev) (word_at (hd_error s)) then k prev s else None
  | Seq r1 r2 => matcher r1 prev s (fun p' s' => matcher r2 p' s' k)
  | Alt r1 r2 =>
    match matcher r1 prev s k with
    | Some a => Some a
    | None => matcher r2 prev s k
    end
  | Opt r1 =>
    let once := fun p' s' =>
      (* an iteration that consumed nothing is rejected *)
      if (length s' =? length s)%nat then None else k p' s' in
    match matcher r1 prev s once with
    | Some a => Some a
    | None => k prev s
    end
  | Rep cs min max => repeat_class cs min max prev s k
  end.
End Matcher.

(** The match that starts exactly at the current position: the matched text
    and the rest of the input after it. *)
Definition match_here (r : regex) (prev : option code_unit) (s : jsstring)
    : option (jsstring * jsstring) :=
  match matcher r prev s (fun _ rest => Some rest) with
  | Some rest => Some (firstn (length s - length rest) s, rest)
  | None => None
  end.

(** ** String.prototype.replace with a global pattern

    The pattern has the [g] flag, so [replace] starts at index 0 whatever
    [lastIndex] was left behind, collects the leftmost match from the
    current position, then resumes after it (one code unit further when the
    match was empty), and finally rebuilds the string from the untouched
    code units and the replacement of every match. *)

Inductive piece : Type :=
| Keep (u : code_unit)     (* a code unit outside every match *)
| Hit (m : jsstring).      (* a match *)

Fixpoint scan (fuel : nat) (r : regex) (prev : option code_unit) (s : jsstring)
    : list piece :=
  match fuel with
  | O => map Keep s
  | S fuel' =>
    match match_here r prev s with
    | Some (u :: m, rest) =>
      Hit (u :: m) :: scan fuel' r (Some (last m u)) rest
    | Some ([], _) =>
      Hit [] :: match s with
                | u :: s' => Keep u :: scan fuel' r (Some u) s'
                | [] => []
                end
    | None =>
      match s with
      | u :: s' => Keep u :: scan fuel' r (Some u) s'
      | [] => []
      end
    end
  end.

(** A replacer is a string or a function of the matched text.  None of
    the registry's replacement strings contains a dollar sign, so they are
    inserted literally. *)
Inductive replacer : Type :=
| Constant (text : jsstring)
| Computed (f : jsstring -> jsstring).

Definition replacement_of (rp : replacer) (m : jsstring) : jsstring :=
  match rp with
  | Constant text => text
  | Computed f => f m
  end.

Definition render (rp : replacer) (p : piece) : jsstring :=
  match p with
  | Keep u => [u]
  | Hit m => replacement_of rp m
  end.

Definition original (p : piece) : jsstring :=
  match p with
  | Keep u => [u]
  | Hit m => m
  end.

Definition replace (r : regex) (rp : replacer) (s : jsstring) : jsstring :=
  flat_map (render rp) (scan (S (length s)) r None s).

(** ** The registry *)

(** [String.prototype.split] with a one-character separator. *)
Fixpoint split (sep : code_unit) (s : jsstring) : list jsstring :=
  match s with
  | [] => [[]]
  | u :: s' =>
    if (u =? sep)%N then [] :: split sep s'
    else match split sep s' with
         | part :: parts => (u :: part) :: parts
         | [] => [[u]]
         end
  end.

(** [String.prototype.substring(0, n)]. *)
Definition substring0 (n : nat) (s : jsstring) : jsstring := firstn n s.

(** Indexing past the end of the array gives [undefined], which string
    concatenation prints. *)
Definition part (i : nat) (parts : list jsstring) : jsstring :=
  nth i parts (u16 "undefined").

Definition email_replacement (m : jsstring) : jsstring :=
  let parts := split (cu "@") m in
  substring0 2 (part 0 parts) ++ u16 "***@" ++ part 1 parts.

Record rule : Type := {
  pattern : regex;
  replacement : replacer;
  description : jsstring
}.

Local Open Scope regex_scope.

Definition digits (n : nat) : regex := Rep [Digit] n (Some n).
Definition lit (c : ascii) : regex := Atom [Chr c].

(** [/\b\d{6}-?\d{4}\b/g] *)
Definition cpr : rule := {|
  pattern := WordBoundary ;; digits 6 ;; Opt (lit "-") ;; digits 4 ;; WordBoundary;
  replacement := Constant (u16 "******-****");
  description := u16 "Danish CPR number"
|}.

Definition local_class : class :=
  [Range "A" "Z"; Range "a" "z"; Range "0" "9"; Chr "."; Chr "_"; Chr "%"; Chr "+"; Chr "-"].
Definition domain_class : class :=
  [Range "A" "Z"; Range "a" "z"; Range "0" "9"; Chr "."; Chr "-"].
(** [[A-Z|a-z]]: the bar is a member of the class. *)
Definition tld_class : class := [Range "A" "Z"; Chr "|"; Range "a" "z"].

(** [/\b[A-Za-z0-9._%+-]+@[A-Za-z0-9.-]+\.[A-Z|a-z]{2,}\b/g] *)
Definition email : rule := {|
  pattern := WordBoundary ;; Rep local_class 1 None ;; lit "@" ;;
             Rep domain_class 1 None ;; lit "." ;; Rep tld_class 2 None ;;
             WordBoundary;
  replacement := Computed email_replacement;
  description := u16 "Email address"
|}.

Definition opt_space : regex := Opt (Atom [Space]).

(** [/\b(?:\+45\s?)?(?:\d{2}\s?\d{2}\s?\d{2}\s?\d{2}|\d{8})\b/g] *)
Definition phone : rule := {|
  pattern := WordBoundary ;;
             Opt (lit "+" ;; lit "4" ;; lit "5" ;; opt_space) ;;
             Alt (digits 2 ;; opt_space ;; digits 2 ;; opt_space ;;
                  digits 2 ;; opt_space ;; digits 2)
                 (digits 8) ;;
             WordBoundary;
  replacement := Constant (u16 "** ** ** **");
  description := u16 "Phone number"
|}.

Definition opt_sep : regex := Opt (Atom [Space; Chr "-"]).

(** [/\b\d{4}[\s-]?\d{4}[\s-]?\d{4}[\s-]?\d{4}\b/g] *)
Definition creditCard : rule := {|
  pattern := WordBoundary ;; digits 4 ;; opt_sep ;; digits 4 ;; opt_sep ;;
             digits 4 ;; opt_sep ;; digits 4 ;; WordBoundary;
  replacement := Constant (u16 "**** **** **** ****");
  description := u16 "Credit card number"
|}.

(** [/\b\d{3}-\d{2}-\d{4}\b/g] *)
Definition ssn : rule := {|
  pattern := WordBoundary ;; digits 3 ;; lit "-" ;; digits 2 ;; lit "-" ;;
             digits 4 ;; WordBoundary;
  replacement := Constant (u16 "***-**-****");
  description := u16 "Social security number"
|}.

Local Close Scope regex_scope.

(** The registry object: its own keys in creation order, which is the order
    of [Object.keys] and [Object.entries], none of them being an array
    index. *)
Definition PII_PATTERNS : list (jsstring * rule) :=
  [ (u16 "cpr", cpr); (u16 "email", email); (u16 "phone", phone);
    (u16 "creditCard", creditCard); (u16 "ssn", ssn) ].

(** ** Values

    What [maskPII] can be handed: the JSON-like values of a decoded
    response, and also the values of JavaScript outside that union which
    take a different path through [maskObject] (symbols and BigInts by
    [typeof], objects that are not plain by [Object.entries]).  An object
    is represented by its own enumerable string-keyed data properties, in
    the order [Object.entries] lists them, and by whether it still is a
    plain object (its prototype is [Object.prototype]). *)

Inductive object_class : Type :=
| Plain      (* created by a literal or by JSON.parse *)
| Exotic.    (* a Date, a Map, a class instance, an object whose prototype was replaced *)

#[local] Unset Elimination Schemes.
Inductive value : Type :=
| VUndefined
| VNull
| VBoolean (b : bool)
| VNumber (n : spec_float)
| VString (s : jsstring)
| VSymbol (name : jsstring)
| VBigInt (z : Z)
| VArray (items : list value)
| VObject (cls : object_class) (own : list (jsstring * value)).
#[local] Set Elimination Schemes.

Definition props := list (jsstring * value).

Section ValueInduction.
Variable P : value -> Prop.
Hypothesis Hundefined : P VUndefined.
Hypothesis Hnull : P VNull.
Hypothesis Hboolean : forall b, P (VBoolean b).
Hypothesis Hnumber : forall n, P (VNumber n).
Hypothesis Hstring : forall s, P (VString s).
Hypothesis Hsymbol : forall s, P (VSymbol s).
Hypothesis Hbigint : forall z, P (VBigInt z).
Hypothesis Harray : forall items, Forall P items -> P (VArray items).
Hypothesis Hobject :
  forall cls own, Forall (fun kv => P (snd kv)) own -> P (VObject cls own).

Fixpoint value_induction (v : value) : P v :=
  match v with
  | VUndefined => Hundefined
  | VNull => Hnull
  | VBoolean b => Hboolean b
  | VNumber n => Hnumber n
  | VString s => Hstring s
  | VSymbol s => Hsymbol s
  | VBigInt z => Hbigint z
  | VArray items =>
    Harray ((fix all (l : list value) : Forall P l :=
               match l with
               | [] => Forall_nil _
               | x :: t => Forall_cons _ (value_induction x) (all t)
               end) items)
  | VObject cls own =>
    Hobject cls
      ((fix all (l : props) : Forall (fun kv => P (snd kv)) l :=
          match l with
          | [] => Forall_nil _
          | kv :: t => Forall_cons _ (value_induction (snd kv)) (all t)
          end) own)
  end.
End ValueInduction.

Inductive type_tag : Type :=
| TUndefined | TObject | TBoolean | TNumber | TString | TSymbol | TBigInt.

Definition typeof (v : value) : type_tag :=
  match v with
  | VUndefined => TUndefined
  | VNull => TObject
  | VBoolean _ => TBoolean
  | VNumber _ => TNumber
  | VString _ => TString
  | VSymbol _ => TSymbol
  | VBigInt _ => TBigInt
  | VArray _ => TObject
  | VObject _ _ => TObject
  end.

(** [ToBoolean]. *)
Definition truthy (v : value) : bool :=
  match v with
  | VUndefined | VNull => false
  | VBoolean b => b
  | VNumber (S754_zero _) | VNumber S754_nan => false
  | VNumber _ => true
  | VString [] => false
  | VString _ => true
  | VBigInt z => negb (z =? 0)%Z
  | VSymbol _ | VArray _ | VObject _ _ => true
  end.

(** [v !== false]. *)
Definition not_false (v : value) : bool :=
  match v with
  | VBoolean false => false
  | _ => true
  end.

(** *** Own properties *)

Fixpoint jsstring_eqb (a b : jsstring) : bool :=
  match a, b with
  | [], [] => true
  | x :: a', y :: b' => (x =? y)%N && jsstring_eqb a' b'
  | _, _ => false
  end.

Fixpoint lookup (k : jsstring) (own : props) : option value :=
  match own with
  | [] => None
  | (k', v) :: own' => if jsstring_eqb k' k then Some v else lookup k own'
  end.

(** Reading a property of a value that is neither [null] nor [undefined].
    The keys read by this module are [enabled] and the registry's keys,
    which primitives and arrays do not have; an object is taken to have
    them as own properties or not at all (no prototype of the values
    modelled here carries one). *)
Definition get (o : value) (k : jsstring) : value :=
  match o with
  | VObject _ own =>
    match lookup k own with
    | Some v => v
    | None => VUndefined
    end
  | _ => VUndefined
  end.

(** An array index is the canonical decimal form of an integer below
    2^32 - 1; own keys that are array indices come first, in ascending
    order, and the other keys follow in creation order. *)
Fixpoint decimal (acc : N) (s : jsstring) : option N :=
  match s with
  | [] => Some acc
  | u :: s' => if is_digit u then decimal (acc * 10 + (u - 48))%N s' else None
  end.

Definition array_index (k : jsstring) : option N :=
  match k with
  | [] => None
  | [u] => if is_digit u then Some (u - 48)%N else None
  | u :: _ =>
    if (u =? 48)%N then None
    else match decimal 0 k with
         | Some n => if (n <? 4294967295)%N then Some n else None
         | None => None
         end
  end.

Fixpoint overwrite (k : jsstring) (v : value) (own : props) : props :=
  match own with
  | [] => []
  | (k', v') :: own' =>
    if jsstring_eqb k' k then (k', v) :: own' else (k', v') :: overwrite k v own'
  end.

Fixpoint insert_index (n : N) (k : jsstring) (v : value) (own : props) : props :=
  match own with
  | [] => [(k, v)]
  | (k', v') :: own' =>
    match array_index k' with
    | Some n' =>
      if (n <? n')%N then (k, v) :: own else (k', v') :: insert_index n k v own'
    | None => (k, v) :: own
    end
  end.

(** Defining an own data property: an existing key keeps its place, a new
    one takes the place the key order gives it. *)
Definition define (own : props) (k : jsstring) (v : value) : props :=
  match lookup k own with
  | Some _ => overwrite k v own
  | None =>
    match array_index k with
    | Some n => insert_index n k v own
    | None => own ++ [(k, v)]
    end
  end.

Definition is_object (v : value) : bool :=
  match v with
  | VArray _ | VObject _ _ => true
  | _ => false
  end.

Definition proto_key : jsstring := u16 "__proto__".

(** [masked[key] = value] on an object built from [{}] by such assignments.
    The key [__proto__] reaches the accessor of [Object.prototype], whose
    setter replaces the prototype when the value is an object or [null]
    and does nothing otherwise; in neither case does the object get an own
    property.  (An object lists a key once, so at most one assignment of a
    traversal reaches the setter.)  Any other key defines an own data
    property. *)
Definition assign (masked : object_class * props) (k : jsstring) (v : value)
    : object_class * props :=
  if jsstring_eqb k proto_key then
    if is_object v || match v with VNull => true | _ => false end
    then (Exotic, snd masked) else masked
  else (fst masked, define (snd masked) k v).

(** ** The masking functions *)

(** One turn of the [forEach] over [Object.keys(PII_PATTERNS)]. *)
Definition apply_pattern (config : value) (maskedValue : jsstring)
    (entry : jsstring * rule) : jsstring :=
  let (patternKey, r) := entry in
  if not_false (get config patternKey)
  then replace (pattern r) (replacement r) maskedValue
  else maskedValue.

Definition maskString (value_ config : value) : value :=
  match value_ with
  | VString s => VString (fold_left (apply_pattern config) PII_PATTERNS s)
  | _ => value_
  end.

Definition empty_object : object_class * props := (Plain, []).

Fixpoint maskObject (obj config : value) {struct obj} : value :=
  match obj with
  | VNull | VUndefined => obj
  | VArray items => VArray (map (fun item => maskObject item config) items)
  | VObject _ own =>
    let masked :=
      fold_left (fun masked kv => assign masked (fst kv) (maskObject (snd kv) config))
                own empty_object in
    VObject (fst masked) (snd masked)
  | VString _ => maskString obj config
  | _ => obj
  end.

(** The only exception this module can raise: reading a property of
    [null]. *)
Inductive error : Type := TypeError.

Inductive completion (A : Type) : Type :=
| Normal (a : A)
| Throw (e : error).
Arguments Normal {A} a.
Arguments Throw {A} e.

(** [maskPII(results, config = {})]: an omitted or [undefined] second
    argument takes the default. *)
Definition maskPII (results config : value) : completion value :=
  let config := match config with
                | VUndefined => VObject Plain []
                | _ => config
                end in
  match config with
  | VNull => Throw TypeError
  | _ =>
    if negb (truthy (get config (u16 "enabled"))) then Normal results
    else Normal (maskObject results config)
  end.

Definition getDefaultMaskingConfig : value :=
  VObject Plain
    [ (u16 "enabled", VBoolean false); (u16 "cpr", VBoolean true);
      (u16 "email", VBoolean true); (u16 "phone", VBoolean true);
      (u16 "creditCard", VBoolean true); (u16 "ssn", VBoolean true) ].

(** A record of the documentation view; [example] is the rule's
    [replacement] as it is, a string or a function. *)
Record pattern_info : Type := {
  name : jsstring;
  info_description : jsstring;
  example : replacer
}.

Definition getAvailablePatterns : list pattern_info :=
  map (fun entry : jsstring * rule =>
         let (key, value_) := entry in
         {| name := key;
            info_description := description value_;
            example := replacement value_ |})
      PII_PATTERNS.

(** ** The Value union of the specification, and well-formed objects *)

(** A Value is null or absent, a string, a number, a boolean, a sequence of
    Values or a plain mapping from keys to Values. *)
Inductive is_value : value -> Prop :=
| value_undefined : is_value VUndefined
| value_null : is_value VNull
| value_boolean b : is_value (VBoolean b)
| value_number n : is_value (VNumber n)
| value_string s : is_value (VString s)
| value_array items : Forall is_value items -> is_value (VArray items)
| value_object own :
    Forall (fun kv => is_value (snd kv)) own -> is_value (VObject Plain own).

(** The entries of an object are listed in key order without repetition:
    defining them one after the other on an empty object gives the same
    listing back. *)
Definition listing (own : props) : Prop :=
  fold_left (fun acc kv => define acc (fst kv) (snd kv)) own [] = own.

Inductive well_formed : value -> Prop :=
| wf_array items : Forall well_formed items -> well_formed (VArray items)
| wf_object cls own :
    listing own -> Forall (fun kv => well_formed (snd kv)) own ->
    well_formed (VObject cls own)
| wf_leaf v : is_object v = false -> well_formed v.

(** No mapping inside the value has the key [__proto__]. *)
Inductive proto_free : value -> Prop :=
| pf_array items : Forall proto_free items -> proto_free (VArray items)
| pf_object cls own :
    Forall (fun kv => jsstring_eqb (fst kv) proto_key = false
                      /\ proto_free (snd kv)) own ->
    proto_free (VObject cls own)
| pf_leaf v : is_object v = false -> proto_free v.

(** Same container shape: the same variant at every node, sequences of the
    same length, mappings with the same keys in the same order, and equal
    leaves except for the content of strings. *)
Inductive same_shape : value -> value -> Prop :=
| shape_string s t : same_shape (VString s) (VString t)
| shape_array xs ys :
    Forall2 same_shape xs ys -> same_shape (VArray xs) (VArray ys)
| shape_object cls xs ys :
    Forall2 (fun x y => fst x = fst y /\ same_shape (snd x) (snd y)) xs ys ->
    same_shape (VObject cls xs) (VObject cls ys)
| shape_leaf v :
    is_object v = false -> typeof v <> TString -> same_shape v v.

(** ** Sample configurations *)

Definition enabled_key : jsstring := u16 "enabled".

Definition gate_on : value := VObject Plain [(enabled_key, VBoolean true)].

(** Values that [ToBoolean] sends to [false]. *)
Definition falsy_samples : list value :=
  [ VUndefined; VNull; VBoolean false; VNumber (S754_zero false);
    VNumber (S754_zero true); VNumber S754_nan; VString [] ].

Definition config_of (flags : props) : value :=
  VObject Plain ((enabled_key, VBoolean true) :: flags).

(** The rules a configuration leaves switched on, in registry order. *)
Definition active_rules (config : value) : list (jsstring * rule) :=
  filter (fun entry => not_false (get config (fst entry))) PII_PATTERNS.

Definition apply_rule (maskedValue : jsstring) (entry : jsstring * rule)
    : jsstring :=
  replace (pattern (snd entry)) (replacement (snd entry)) maskedValue.

(** A documentation record whose example is a placeholder string. *)
Definition has_example_string (info : pattern_info) : Prop :=
  exists text, example info = Constant text.

(** ** Auxiliary notions for the traversal *)

Definition map_values (f : value -> value) (own : props) : props :=
  map (fun kv => (fst kv, f (snd kv))) own.

(** A mapping that JSON.parse produces from [{"__proto__": "x", "id": "1"}]. *)
Definition proto_sample : value :=
  VObject Plain [ (proto_key, VString (u16 "x")); (u16 "id", VString (u16 "1")) ].

(** ** What a pattern matches

    A declarative reading of the patterns, against which the backtracking
    matcher is proved sound and complete: [matches r prev m next] says that
    [r] can match the text [m] when [prev] is the code unit before it and
    [next] the code unit after it (the two positions [\b] looks at). *)

(** The code unit before the position that follows [m]. *)
Definition last_of (m : jsstring) (prev : option code_unit) : option code_unit :=
  match m with
  | [] => prev
  | u :: m' => Some (last m' u)
  end.

(** The code unit at the position where [m] starts. *)
Definition first_of (m : jsstring) (next : option code_unit) : option code_unit :=
  match m with
  | [] => next
  | u :: _ => Some u
  end.

Definition within (max : option nat) (n : nat) : Prop :=
  match max with
  | Some b => n <= b
  | None => True
  end.

Fixpoint matches (r : regex) (prev : option code_unit) (m : jsstring)
    (next : option code_unit) {struct r} : Prop :=
  match r with
  | Atom cs => exists u, m = [u] /\ class_mem cs u = true
  | WordBoundary => m = [] /\ xorb (word_at prev) (word_at next) = true
  | Seq r1 r2 =>
    exists m1 m2, m = m1 ++ m2 /\
      matches r1 prev m1 (first_of m2 next) /\
      matches r2 (last_of m1 prev) m2 next
  | Alt r1 r2 => matches r1 prev m next \/ matches r2 prev m next
  | Opt r1 => m = [] \/ matches r1 prev m next
  | Rep cs min max =>
    Forall (fun u => class_mem cs u = true) m /\ min <= length m /\
    within max (length m)
  end.

(** Every counted quantifier has its bounds in order, as the syntax of
    regular expression literals demands. *)
Fixpoint quantifiers_ok (r : regex) : bool :=
  match r with
  | Atom _ | WordBoundary => true
  | Seq r1 r2 | Alt r1 r2 => quantifiers_ok r1 && quantifiers_ok r2
  | Opt r1 => quantifiers_ok r1
  | Rep _ min (Some max) => (min <=? max)%nat
  | Rep _ _ None => true
  end.

(** [u] belongs to some class of the pattern. *)
Fixpoint mentions (r : regex) (u : code_unit) : bool :=
  match r with
  | Atom cs => class_mem cs u
  | WordBoundary => false
  | Seq r1 r2 | Alt r1 r2 => mentions r1 u || mentions r2 u
  | Opt r1 => mentions r1 u
  | Rep cs _ _ => class_mem cs u
  end.

(** A lower bound on the length of a match. *)
Fixpoint min_length (r : regex) : nat :=
  match r with
  | Atom _ => 1
  | WordBoundary => 0
  | Seq r1 r2 => min_length r1 + min_length r2
  | Alt r1 r2 => Nat.min (min_length r1) (min_length r2)
  | Opt _ => 0
  | Rep _ min _ => min
  end.

(** The pattern begins, respectively ends, with [\b]. *)
Definition anchored_start (r : regex) : bool :=
  match r with
  | WordBoundary | Seq WordBoundary _ => true
  | _ => false
  end.

Fixpoint anchored_end (r : regex) : bool :=
  match r with
  | WordBoundary => true
  | Seq _ r2 => anchored_end r2
  | _ => false
  end.

Definition star : code_unit := cu "*".

(** A whole-word pattern: [\b] at both ends, at least two code units, and
    no asterisk among them. *)
Definition bounded (r : regex) : bool :=
  quantifiers_ok r && anchored_start r && anchored_end r
  && (2 <=? min_length r)%nat && negb (mentions r star).

(** A placeholder in which every code unit other than an asterisk is
    followed by an asterisk. *)
Fixpoint guarded (text : jsstring) : bool :=
  match text with
  | [] => true
  | c :: text' =>
    match text' with
    | [] => (c =? star)%N
    | d :: _ => ((c =? star)%N || (d =? star)%N) && guarded text'
    end
  end.

Definition placeholder_ok (text : jsstring) : bool :=
  match text with
  | [] => false
  | c :: _ => (c =? star)%N && guarded text
  end.

(** A whole-word rule with a constant placeholder of asterisks. *)
Definition good_rule (r : rule) : bool :=
  bounded (pattern r) &&
  match replacement r with
  | Constant text => placeholder_ok text
  | Computed _ => false
  end.

(** What [scan] guarantees about its result on the text [s]: every kept
    code unit is one where no match starts, and every hit is a match in its
    context. *)
Inductive scanned (r : regex) : option code_unit -> jsstring -> list piece -> Prop :=
| scanned_nil prev : scanned r prev [] []
| scanned_keep prev u s ps :
    match_here r prev (u :: s) = None ->
    scanned r (Some u) s ps ->
    scanned r prev (u :: s) (Keep u :: ps)
| scanned_hit prev m s ps :
    m <> [] ->
    matches r prev m (hd_error s) ->
    scanned r (last_of m prev) s ps ->
    scanned r prev (m ++ s) (Hit m :: ps).

(** No match of [r] starts anywhere in [t], [prev] being the code unit
    before [t]. *)
Definition clean (r : regex) (prev : option code_unit) (t : jsstring) : Prop :=
  forall u w, t = u ++ w -> match_here r (last_of u prev) w = None.

(** How the code unit before a position of the rewritten text ([prev'])
    relates to the one before the same position of the original text
    ([prev]): they are the same, or the former is the end of a placeholder
    and the latter the end of the match it stands for. *)
Definition context_ok (prev prev' : option code_unit) (t : jsstring) : Prop :=
  prev' = prev \/
  (word_at prev' = false /\ xorb (word_at prev) (word_at (hd_error t)) = true).

Definition email_key : jsstring := u16 "email".

(** The text rebuilt from pieces with a constant placeholder. *)
Definition rendered (text : jsstring) (ps : list piece) : jsstring :=
  flat_map (render (Constant text)) ps.

(** ** Sample inputs *)

Definition sample_doc : value :=
  VObject Plain
    [ (u16 "card", VString (u16 "1234 5678 9012 3456"));
      (u16 "phones", VArray [VString (u16 "tel+45 12 34 56 78"); VNull]);
      (u16 "count", VNumber (S754_finite false 12345678 0)) ].

(** Two addresses sharing a middle part: the domain of the first is the
    local part of the second. *)
Definition chained_addresses : value := VString (u16 "a@b.cc@d.ee").

(** ** Rules that need an at sign *)

Definition at_sign : code_unit := cu "@".

Definition only (cs : class) (u : code_unit) : bool :=
  match cs with
  | [Chr c] => (cu c =? u)%N
  | _ => false
  end.

(** Every match of the pattern contains [u]. *)
Fixpoint requires (r : regex) (u : code_unit) : bool :=
  match r with
  | Atom cs => only cs u
  | WordBoundary => false
  | Seq r1 r2 => requires r1 u || requires r2 u
  | Alt r1 r2 => requires r1 u && requires r2 u
  | Opt _ => false
  | Rep cs min _ => (1 <=? min)%nat && only cs u
  end.

(** A whole-word rule with a constant placeholder of asterisks and no at
    sign; and a rule that is one of those or whose matches all contain an
    at sign. *)
Definition settling_rule (r : rule) : bool :=
  good_rule r &&
  match replacement r with
  | Constant text => negb (existsb (N.eqb at_sign) text)
  | Computed _ => false
  end.

Definition tame_rule (r : rule) : bool :=
  settling_rule r || (quantifiers_ok (pattern r) && requires (pattern r) at_sign).

(** A property of every string inside a value. *)
Inductive strings_satisfy (P : jsstring -> Prop) : value -> Prop :=
| ss_string s : P s -> strings_satisfy P (VString s)
| ss_array items :
    Forall (strings_satisfy P) items -> strings_satisfy P (VArray items)
| ss_object cls own :
    Forall (fun kv => strings_satisfy P (snd kv)) own ->
    strings_satisfy P (VObject cls own)
| ss_leaf v :
    is_object v = false -> typeof v <> TString -> strings_satisfy P v.

Definition at_free (s : jsstring) : Prop := ~ In at_sign s.

(** Masking the string again changes nothing. *)
Definition settled (config : value) (s : jsstring) : Prop :=
  maskString (maskString (VString s) config) config
  = maskString (VString s) config.

(** * Configuration (src/config.js)

    [loadConfig] reads an optional [.env] file into [process.env] and then
    builds the configuration object from the environment. *)

(** [process.env]: the value of a variable, if it is set. *)
Definition environment := jsstring -> option jsstring.

(** [process.env[key] = value]. *)
Definition setenv (env : environment) (k v : jsstring) : environment :=
  fun k' => if jsstring_eqb k' k then Some v else env k'.

(** [process.env] inherits from [Object.prototype]: for a name that is no
    variable, [process.env[name]] is the inherited property when there is
    one. *)
Definition prototype_names : list jsstring :=
  map u16 [ "constructor"; "__defineGetter__"; "__defineSetter__";
            "hasOwnProperty"; "__lookupGetter__"; "__lookupSetter__";
            "isPrototypeOf"; "propertyIsEnumerable"; "toString"; "valueOf";
            "__proto__"; "toLocaleString" ]%string.

Definition inherited (k : jsstring) : bool :=
  existsb (jsstring_eqb k) prototype_names.

(** [ToBoolean(process.env[key])]: a variable set to the empty string is
    falsy, an inherited property is truthy. *)
Definition env_truthy (env : environment) (k : jsstring) : bool :=
  match env k with
  | Some [] => false
  | Some (_ :: _) => true
  | None => inherited k
  end.

(** [String.prototype.trim]: white space and line terminators, the code
    units of [\s], are removed at both ends. *)
Fixpoint trim_start (s : jsstring) : jsstring :=
  match s with
  | u :: s' => if is_space u then trim_start s' else s
  | [] => []
  end.

Definition trim_end (s : jsstring) : jsstring := rev (trim_start (rev s)).

Definition trim (s : jsstring) : jsstring := trim_end (trim_start s).

(** [Array.prototype.join] with a one-character separator. *)
Fixpoint join (sep : code_unit) (parts : list jsstring) : jsstring :=
  match parts with
  | [] => []
  | p :: parts' =>
    match parts' with
    | [] => p
    | _ :: _ => p ++ sep :: join sep parts'
    end
  end.

Definition nonempty (s : jsstring) : bool :=
  match s with
  | [] => false
  | _ :: _ => true
  end.

(** [s.startsWith(c)] for a one-character string. *)
Definition startsWith (c : code_unit) (s : jsstring) : bool :=
  match s with
  | u :: _ => (u =? c)%N
  | [] => false
  end.

Definition hash : code_unit := cu "#".
Definition equals : code_unit := cu "=".
Definition newline : code_unit := 10%N.

(** The body of the [forEach] over the lines of the file. *)
Definition dotenv_line (env : environment) (line : jsstring) : environment :=
  let trimmed := trim line in
  if nonempty trimmed && negb (startsWith hash trimmed) then
    match split equals trimmed with
    | key :: valueParts =>
      let value := join equals valueParts in
      if nonempty key && nonempty value && negb (env_truthy env key)
      then setenv env key value
      else env
    | [] => env
    end
  else env.

(** What can be raised outside [maskPII]. *)
Inductive exception : Type :=
| EngineTypeError                          (* a TypeError of the engine *)
| FileError                                (* [readFileSync] failed *)
| ResponseError (statusCode : option N)    (* the client's error and its [meta?.statusCode] *)
| ToolError (message : jsstring).          (* [new Error(message + ...)], the start of the message *)

Inductive outcome (A : Type) : Type :=
| Returns (a : A)
| Throws (e : exception).
Arguments Returns {A} a.
Arguments Throws {A} e.

(** The file [.env] of the working directory. *)
Inductive dotenv_file : Type :=
| NoFile                       (* [existsSync] is false *)
| Unreadable                   (* it exists and [readFileSync] throws *)
| File (content : jsstring).   (* its text *)

Definition load_dotenv (file : dotenv_file) (env : environment)
    : outcome environment :=
  match file with
  | NoFile => Returns env
  | Unreadable => Throws FileError
  | File envContent =>
    Returns (fold_left dotenv_line (split newline envContent) env)
  end.

(** [process.env.NAME], [undefined] when the variable is not set. *)
Definition env_value (env : environment) (k : jsstring) : value :=
  match env k with
  | Some s => VString s
  | None => VUndefined
  end.

(** [process.env.NAME || fallback]. *)
Definition env_or (env : environment) (k fallback : jsstring) : value :=
  match env k with
  | Some (u :: s) => VString (u :: s)
  | _ => VString fallback
  end.

(** [process.env.NAME === text]. *)
Definition env_is (env : environment) (k text : jsstring) : bool :=
  match env k with
  | Some s => jsstring_eqb s text
  | None => false
  end.

Definition piiMaskingConfig (env : environment) : value :=
  VObject Plain
    [ (u16 "enabled", VBoolean (env_is env (u16 "PII_MASKING_ENABLED") (u16 "true")));
      (u16 "cpr", VBoolean (negb (env_is env (u16 "PII_MASK_CPR") (u16 "false"))));
      (u16 "email", VBoolean (negb (env_is env (u16 "PII_MASK_EMAIL") (u16 "false"))));
      (u16 "phone", VBoolean (negb (env_is env (u16 "PII_MASK_PHONE") (u16 "false"))));
      (u16 "creditCard",
       VBoolean (negb (env_is env (u16 "PII_MASK_CREDIT_CARD") (u16 "false"))));
      (u16 "ssn", VBoolean (negb (env_is env (u16 "PII_MASK_SSN") (u16 "false")))) ].

Definition config_object (env : environment) : value :=
  VObject Plain
    [ (u16 "node",
       env_or env (u16 "ELASTICSEARCH_NODE") (u16 "https://localhost:9200"));
      (u16 "apiKey", env_value env (u16 "ELASTICSEARCH_API_KEY"));
      (u16 "username", env_value env (u16 "ELASTICSEARCH_USERNAME"));
      (u16 "password", env_value env (u16 "ELASTICSEARCH_PASSWORD"));
      (u16 "indexPattern",
       env_or env (u16 "ELASTICSEARCH_INDEX_PATTERN") (u16 "logs-*"));
      (u16 "correlationIdField",
       env_or env (u16 "CORRELATION_ID_FIELD") (u16 "fields.CorrelationIdentifier"));
      (u16 "piiMasking", piiMaskingConfig env) ].

(** [loadConfig]: the configuration and the environment it leaves. *)
Definition loadConfig (file : dotenv_file) (env : environment)
    : outcome (value * environment) :=
  match load_dotenv file env with
  | Throws e => Throws e
  | Returns env' => Returns (config_object env', env')
  end.

Definition getConfig (file : dotenv_file) (env : environment)
    : outcome (value * environment) :=
  loadConfig file env.

(** The environment variable behind each rule's flag. *)
Definition flag_variable (patternKey : jsstring) : jsstring :=
  if jsstring_eqb patternKey (u16 "cpr") then u16 "PII_MASK_CPR"
  else if jsstring_eqb patternKey (u16 "email") then u16 "PII_MASK_EMAIL"
  else if jsstring_eqb patternKey (u16 "phone") then u16 "PII_MASK_PHONE"
  else if jsstring_eqb patternKey (u16 "creditCard") then u16 "PII_MASK_CREDIT_CARD"
  else u16 "PII_MASK_SSN".

(** A line of [.env] that defines a variable: its key and its value. *)
Definition parse_line (line : jsstring) : option (jsstring * jsstring) :=
  let trimmed := trim line in
  if nonempty trimmed && negb (startsWith hash trimmed) then
    match split equals trimmed with
    | key :: valueParts =>
      if nonempty key && nonempty (join equals valueParts)
      then Some (key, join equals valueParts) else None
    | [] => None
    end
  else None.

(** * The tools (src/index.js)

    Each tool awaits a call of the Elasticsearch client, builds its result
    from the response and passes it through [maskPII].  The client is
    outside the repository: what the awaited call gives, a response or an
    error, is an argument here, and so is the configuration object that
    [getConfig] returned when the module was loaded. *)

(** [o.k] or [o[k]]: a TypeError on [null] and [undefined]. *)
Definition read (o : value) (k : jsstring) : outcome value :=
  match o with
  | VUndefined | VNull => Throws EngineTypeError
  | _ => Returns (get o k)
  end.

Definition bind {A B : Type} (x : outcome A) (f : A -> outcome B) : outcome B :=
  match x with
  | Returns a => f a
  | Throws e => Throws e
  end.

(** [hit => ({ index: hit._index, id: hit._id, score: hit._score,
    source: hit._source })] *)
Definition hit_view (hit : value) : outcome value :=
  bind (read hit (u16 "_index")) (fun index =>
  bind (read hit (u16 "_id")) (fun id =>
  bind (read hit (u16 "_score")) (fun score =>
  bind (read hit (u16 "_source")) (fun source =>
  Returns (VObject Plain [ (u16 "index", index); (u16 "id", id);
                           (u16 "score", score); (u16 "source", source) ]))))).

(** [items.map(f)], stopping at the first exception. *)
Fixpoint map_outcome (f : value -> outcome value) (items : list value)
    : outcome (list value) :=
  match items with
  | [] => Returns []
  | x :: items' =>
    bind (f x) (fun y =>
    bind (map_outcome f items') (fun ys => Returns (y :: ys)))
  end.

(** [x.map(f)]: only an array has the method among the values modelled. *)
Definition array_map (f : value -> outcome value) (x : value) : outcome value :=
  match x with
  | VArray items => bind (map_outcome f items) (fun ys => Returns (VArray ys))
  | _ => Throws EngineTypeError
  end.

(** [{ total: response.hits.total.value, hits: response.hits.hits.map(...) }] *)
Definition search_result (response : value) : outcome value :=
  bind (read response (u16 "hits")) (fun hits =>
  bind (read hits (u16 "total")) (fun total =>
  bind (read total (u16 "value")) (fun total_value =>
  bind (read response (u16 "hits")) (fun hits' =>
  bind (read hits' (u16 "hits")) (fun hits_hits =>
  bind (array_map hit_view hits_hits) (fun views =>
  Returns (VObject Plain [ (u16 "total", total_value); (u16 "hits", views) ]))))))).

(** [maskPII(result, config.piiMasking)]. *)
Definition mask_result (config result : value) : outcome value :=
  bind (read config (u16 "piiMasking")) (fun piiMasking =>
  match maskPII result piiMasking with
  | Normal masked => Returns masked
  | Throw TypeError => Throws EngineTypeError
  end).

Definition search_failed : jsstring := u16 "Elasticsearch search failed: ".

(** The part of [searchByCorrelationId] after the awaited search: every
    exception of the [try] block is replaced by the tool's own error. *)
Definition searchByCorrelationId (config : value) (reply : outcome value)
    : outcome value :=
  match bind reply (fun response =>
        bind (search_result response) (mask_result config)) with
  | Returns masked => Returns masked
  | Throws _ => Throws (ToolError search_failed)
  end.

(** [customSearch] treats the response in the same way. *)
Definition customSearch (config : value) (reply : outcome value)
    : outcome value :=
  match bind reply (fun response =>
        bind (search_result response) (mask_result config)) with
  | Returns masked => Returns masked
  | Throws _ => Throws (ToolError search_failed)
  end.

(** [{ index: response._index, id: response._id, found: response.found,
    source: response._source }] *)
Definition document_result (response : value) : outcome value :=
  bind (read response (u16 "_index")) (fun index =>
  bind (read response (u16 "_id")) (fun id =>
  bind (read response (u16 "found")) (fun found =>
  bind (read response (u16 "_source")) (fun source =>
  Returns (VObject Plain [ (u16 "index", index); (u16 "id", id);
                           (u16 "found", found); (u16 "source", source) ]))))).

Definition not_found : value :=
  VObject Plain [ (u16 "found", VBoolean false);
                  (u16 "error", VString (u16 "Document not found")) ].

(** [error.meta?.statusCode === 404]. *)
Definition is_404 (e : exception) : bool :=
  match e with
  | ResponseError (Some code) => (code =? 404)%N
  | _ => false
  end.

Definition getDocument (config : value) (reply : outcome value)
    : outcome value :=
  match bind reply (fun response =>
        bind (document_result response) (mask_result config)) with
  | Returns masked => Returns masked
  | Throws e =>
    if is_404 e then Returns not_found
    else Throws (ToolError (u16 "Failed to get document: "))
  end.

(** * Notions for the statements about rules *)

(** The class is [\d]. *)
Definition digit_class (cs : class) : bool :=
  match cs with
  | [Digit] => true
  | _ => false
  end.

(** Every match of the pattern contains a digit. *)
Fixpoint needs_digit (r : regex) : bool :=
  match r with
  | Atom cs => digit_class cs
  | WordBoundary => false
  | Seq r1 r2 => needs_digit r1 || needs_digit r2
  | Alt r1 r2 => needs_digit r1 && needs_digit r2
  | Opt _ => false
  | Rep cs min _ => (1 <=? min)%nat && digit_class cs
  end.

(** The rules that come after the email rule in the registry. *)
Definition late_rules : list (jsstring * rule) :=
  [ (u16 "phone", phone); (u16 "creditCard", creditCard); (u16 "ssn", ssn) ].

Definition early_rules : list (jsstring * rule) :=
  [ (u16 "cpr", cpr); (u16 "email", email) ].

(** ** Names and samples for the configuration and the tools *)

(** An environment that switches the email rule off, and a [.env] file
    with a comment, a carriage return, a padded line and a variable
    defined twice. *)
Definition sample_env : environment :=
  fun k => if jsstring_eqb k (u16 "PII_MASK_EMAIL") then Some (u16 "false")
           else None.

Definition sample_dotenv : jsstring :=
  u16 "# masking" ++ [newline] ++ u16 "PII_MASKING_ENABLED=true" ++ [13%N; newline]
  ++ u16 "PII_MASK_EMAIL=true" ++ [newline]
  ++ u16 "  ELASTICSEARCH_API_KEY=abc== " ++ [newline]
  ++ u16 "PII_MASKING_ENABLED=false".

(** Names that [loadConfig] uses. *)
Definition masking_variable : jsstring := u16 "PII_MASKING_ENABLED".

Definition piiMasking_key : jsstring := u16 "piiMasking".

(** What a tool's answer is made of, [m] being what masking does to a
    field. *)
Definition hit_fields (m : value -> value) (hit : value) : value :=
  VObject Plain [ (u16 "index", m (get hit (u16 "_index")));
                  (u16 "id", m (get hit (u16 "_id")));
                  (u16 "score", m (get hit (u16 "_score")));
                  (u16 "source", m (get hit (u16 "_source"))) ].

Definition search_fields (m : value -> value) (response : value)
    (hits : list value) : value :=
  VObject Plain
    [ (u16 "total",
       m (get (get (get response (u16 "hits")) (u16 "total")) (u16 "value")));
      (u16 "hits", VArray (map (hit_fields m) hits)) ].

Definition document_fields (m : value -> value) (response : value) : value :=
  VObject Plain [ (u16 "index", m (get response (u16 "_index")));
                  (u16 "id", m (get response (u16 "_id")));
                  (u16 "found", m (get response (u16 "found")));
                  (u16 "source", m (get response (u16 "_source"))) ].

(** What masking does to a field under the configuration [piiMasking]. *)
Definition field_mask (piiMasking : value) : value -> value :=
  if truthy (get piiMasking enabled_key)
  then fun v => maskObject v piiMasking
  else fun v => v.

(** An environment that switches masking on, and responses of the
    client. *)
Definition masking_env : environment :=
  fun k => if jsstring_eqb k masking_variable then Some (u16 "true") else None.

Definition sample_hit : value :=
  VObject Plain
    [ (u16 "_index", VString (u16 "logs-2024"));
      (u16 "_id", VString (u16 "12345678"));
      (u16 "_score", VNumber (S754_finite false 1 0));
      (u16 "_source",
       VObject Plain [ (u16 "user", VString (u16 "john.doe@example.com")) ]) ].

Definition sample_response : value :=
  VObject Plain
    [ (u16 "hits",
       VObject Plain
         [ (u16 "total",
            VObject Plain [ (u16 "value", VNumber (S754_finite false 1 0)) ]);
           (u16 "hits", VArray [sample_hit]) ]) ].

Definition sample_answer : value :=
  VObject Plain
    [ (u16 "total", VNumber (S754_finite false 1 0));
      (u16 "hits",
       VArray
         [ VObject Plain
             [ (u16 "index", VString (u16 "logs-2024"));
               (u16 "id", VString (u16 "** ** ** **"));
               (u16 "score", VNumber (S754_finite false 1 0));
               (u16 "source",
                VObject Plain [ (u16 "user", VString (u16 "jo***@example.com")) ]) ] ]) ].

Definition sample_document : value :=
  VObject Plain
    [ (u16 "_index", VString (u16 "logs-2024"));
      (u16 "_id", VString (u16 "doc-1"));
      (u16 "found", VBoolean true);
      (u16 "_source", VObject Plain [ (u16 "cpr", VString (u16 "123456-7890")) ]) ].

(** No variable is set. *)
Definition empty_env : environment := fun _ => None.

(* ================================================================== *)
(** * Properties *)

Unset Implicit Arguments.

(** ** The gate of [maskPII] *)

Lemma jsstring_eqb_eq (a b : jsstring) : jsstring_eqb a b = true <-> a = b.
Proof.
  revert b; induction a as [|x a IH]; intros [|y b]; simpl; split;
    try discriminate; try reflexivity.
  - intros H. apply andb_true_iff in H as [Hx Hab].
    apply N.eqb_eq in Hx. apply IH in Hab. congruence.
  - intros H. injection H as -> ->. rewrite N.eqb_refl. simpl.
    apply IH. reflexivity.
Qed.

Lemma not_false_iff (v : value) : not_false v = false <-> v = VBoolean false.
Proof.
  split.
  - destruct v as [| |[|]| | | | | |]; simpl; intros H;
      try discriminate; reflexivity.
  - intros ->. reflexivity.
Qed.

Lemma maskPII_gate (results config : value) :
  config <> VNull ->
  maskPII results config =
    if truthy (get config enabled_key)
    then Normal (maskObject results config) else Normal results.
Proof.
  intros Hnull. unfold maskPII.
  destruct config as [| | | | | | | |cls own]; try congruence;
    try reflexivity.
  destruct (truthy (get (VObject cls own) (u16 "enabled"))) eqn:E;
    unfold enabled_key; rewrite E; reflexivity.
Qed.

(** C6: when the configuration's [enabled] field is [false], [maskPII]
    returns its input, whatever the per-rule flags are. *)
Theorem maskPII_disabled_identity (v config : value) :
  get config enabled_key = VBoolean false ->
  maskPII v config = Normal v.
Proof.
  intros H.
  assert (Hnull : config <> VNull) by (intros ->; discriminate H).
  rewrite (maskPII_gate v config Hnull), H. reflexivity.
Qed.

Lemma maskPII_disabled_identity_witness :
  get getDefaultMaskingConfig enabled_key = VBoolean false /\
  maskPII (VArray [VString (u16 "john.doe@example.com"); VNull])
          getDefaultMaskingConfig
  = Normal (VArray [VString (u16 "john.doe@example.com"); VNull]).
Proof.
  split; [reflexivity|].
  apply (maskPII_disabled_identity
           (VArray [VString (u16 "john.doe@example.com"); VNull])
           getDefaultMaskingConfig).
  reflexivity.
Defined.



(** ** Errors *)

(** [maskPII] raises exactly when the configuration is [null]; the input
    value plays no part in it. *)
Lemma maskPII_throws_iff (v config : value) :
  (exists e, maskPII v config = Throw e) <-> config = VNull.
Proof.
  split.
  - intros [e H]. destruct config; try reflexivity;
      unfold maskPII in H;
      match type of H with
      | context [if ?b then _ else _] => destruct b; discriminate H
      end.
  - intros ->. exists TypeError. reflexivity.
Qed.



(** ** Per-rule flags *)

Lemma fold_apply_pattern (config : value) (rules : list (jsstring * rule))
    (s : jsstring) :
  fold_left (apply_pattern config) rules s =
  fold_left apply_rule
    (filter (fun entry => not_false (get config (fst entry))) rules) s.
Proof.
  revert s; induction rules as [|[k r] rules IH]; intros s; simpl.
  - reflexivity.
  - destruct (not_false (get config k)); simpl; apply IH.
Qed.

Lemma maskString_active (config : value) (s : jsstring) :
  maskString (VString s) config =
  VString (fold_left apply_rule (active_rules config) s).
Proof.
  unfold maskString, active_rules. rewrite fold_apply_pattern. reflexivity.
Qed.



(** ** The documentation view *)

(** C10: [getAvailablePatterns] returns one record per rule, in registry
    order, with the rule's key and description; its [example] is the rule's
    replacement, which is a placeholder string for four rules and, for the
    email rule, the replacement function itself and no string. *)
Theorem getAvailablePatterns_email_example_not_string :
  map name getAvailablePatterns =
    [u16 "cpr"; u16 "email"; u16 "phone"; u16 "creditCard"; u16 "ssn"] /\
  map info_description getAvailablePatterns =
    [u16 "Danish CPR number"; u16 "Email address"; u16 "Phone number";
     u16 "Credit card number"; u16 "Social security number"] /\
  map example getAvailablePatterns =
    [Constant (u16 "******-****"); Computed email_replacement;
     Constant (u16 "** ** ** **"); Constant (u16 "**** **** **** ****");
     Constant (u16 "***-**-****")] /\
  ~ Forall has_example_string getAvailablePatterns.
Proof.
  repeat split; try reflexivity.
  intros H. inversion H as [|? ? _ H1]; subst.
  inversion H1 as [|? ? [text Htext] _]; subst.
  discriminate Htext.
Qed.

(** ** Shape of the traversal's result *)

Section MapValues.
Variable f : value -> value.

Lemma lookup_map_values (k : jsstring) (own : props) :
  lookup k (map_values f own) = option_map f (lookup k own).
Proof.
  induction own as [|[k' v] own IH]; simpl; [reflexivity|].
  destruct (jsstring_eqb k' k); [reflexivity|exact IH].
Qed.

Lemma overwrite_map_values (k : jsstring) (v : value) (own : props) :
  overwrite k (f v) (map_values f own) = map_values f (overwrite k v own).
Proof.
  induction own as [|[k' v'] own IH]; simpl; [reflexivity|].
  destruct (jsstring_eqb k' k); simpl; [reflexivity|].
  f_equal. exact IH.
Qed.

Lemma insert_index_map_values (n : N) (k : jsstring) (v : value) (own : props) :
  insert_index n k (f v) (map_values f own)
  = map_values f (insert_index n k v own).
Proof.
  induction own as [|[k' v'] own IH]; simpl; [reflexivity|].
  destruct (array_index k') as [n'|]; [|reflexivity].
  destruct (n <? n')%N; simpl; [reflexivity|].
  f_equal. exact IH.
Qed.

Lemma define_map_values (own : props) (k : jsstring) (v : value) :
  define (map_values f own) k (f v) = map_values f (define own k v).
Proof.
  unfold define. rewrite lookup_map_values.
  destruct (lookup k own); simpl.
  - apply overwrite_map_values.
  - destruct (array_index k).
    + apply insert_index_map_values.
    + unfold map_values. rewrite map_app. reflexivity.
Qed.

Lemma fold_define_map_values (l acc : props) :
  fold_left (fun a kv => define a (fst kv) (snd kv)) (map_values f l)
            (map_values f acc)
  = map_values f (fold_left (fun a kv => define a (fst kv) (snd kv)) l acc).
Proof.
  revert acc; induction l as [|[k v] l IH]; intros acc; simpl.
  - reflexivity.
  - rewrite define_map_values. apply IH.
Qed.

Lemma fold_define_map_values_nil (l : props) :
  fold_left (fun a kv => define a (fst kv) (snd kv)) (map_values f l) []
  = map_values f (fold_left (fun a kv => define a (fst kv) (snd kv)) l []).
Proof. exact (fold_define_map_values l []). Qed.

Lemma listing_map_values (own : props) :
  listing own -> listing (map_values f own).
Proof.
  unfold listing. intros H.
  rewrite fold_define_map_values_nil. rewrite H. reflexivity.
Qed.
End MapValues.

Lemma lookup_absent (k : jsstring) (own : props) :
  ~ In k (map fst own) -> lookup k own = None.
Proof.
  induction own as [|[k' v] own IH]; simpl; intros H; [reflexivity|].
  destruct (jsstring_eqb k' k) eqn:E.
  - apply jsstring_eqb_eq in E. exfalso. apply H. left. exact E.
  - apply IH. intros Hin. apply H. right. exact Hin.
Qed.

Lemma fold_define_names (own : props) :
  forall acc,
    NoDup (map fst own) ->
    Forall (fun kv => array_index (fst kv) = None) own ->
    (forall k, In k (map fst own) -> ~ In k (map fst acc)) ->
    fold_left (fun a kv => define a (fst kv) (snd kv)) own acc = acc ++ own.
Proof.
  induction own as [|[k v] own IH]; intros acc Hnd Hidx Hfresh; simpl.
  - rewrite app_nil_r. reflexivity.
  - inversion Hnd as [|? ? Hk Hnd']; subst.
    inversion Hidx as [|? ? Hkidx Hidx']; subst. simpl in Hkidx.
    unfold define at 2.
    rewrite (lookup_absent k acc) by (apply Hfresh; left; reflexivity).
    rewrite Hkidx. rewrite IH; try assumption.
    + rewrite <- app_assoc. reflexivity.
    + intros k' Hk' Hin. rewrite map_app in Hin.
      apply in_app_or in Hin as [Hin|[<-|[]]].
      * apply (Hfresh k'); [right; exact Hk'|exact Hin].
      * apply Hk. exact Hk'.
Qed.

(** Distinct names that are not array indices are listed in the order they
    were created in, whatever it is. *)
Lemma listing_distinct_names (own : props) :
  NoDup (map fst own) ->
  Forall (fun kv => array_index (fst kv) = None) own ->
  listing own.
Proof.
  intros Hnd Hidx. unfold listing.
  rewrite fold_define_names; auto.
Qed.

Lemma fold_assign_map_values (f : value -> value) (own : props)
    (init : object_class * props) :
  fold_left (fun masked kv => assign masked (fst kv) (f (snd kv))) own init
  = fold_left (fun masked kv => assign masked (fst kv) (snd kv))
              (map_values f own) init.
Proof.
  revert init; induction own as [|[k v] own IH]; intros init; simpl.
  - reflexivity.
  - apply IH.
Qed.

Lemma fold_assign_no_proto (own : props) (init : object_class * props) :
  Forall (fun kv => jsstring_eqb (fst kv) proto_key = false) own ->
  fold_left (fun masked kv => assign masked (fst kv) (snd kv)) own init
  = (fst init,
     fold_left (fun a kv => define a (fst kv) (snd kv)) own (snd init)).
Proof.
  revert init; induction own as [|[k v] own IH]; intros init H; simpl.
  - destruct init; reflexivity.
  - inversion H as [|? ? Hk Hown]; subst. simpl in Hk.
    rewrite IH by assumption.
    unfold assign. rewrite Hk. reflexivity.
Qed.

(** Without the key [__proto__], a mapping is rebuilt key by key. *)
Lemma maskObject_object (cls : object_class) (own : props) (config : value) :
  Forall (fun kv => jsstring_eqb (fst kv) proto_key = false) own ->
  listing own ->
  maskObject (VObject cls own) config
  = VObject Plain (map_values (fun v => maskObject v config) own).
Proof.
  intros Hkeys Hown. simpl.
  rewrite (fold_assign_map_values (fun v => maskObject v config)).
  rewrite fold_assign_no_proto.
  - simpl. rewrite fold_define_map_values_nil.
    rewrite Hown. reflexivity.
  - unfold map_values. apply Forall_map. simpl. exact Hkeys.
Qed.

Lemma proto_free_keys (own : props) :
  Forall (fun kv => jsstring_eqb (fst kv) proto_key = false
                    /\ proto_free (snd kv)) own ->
  Forall (fun kv => jsstring_eqb (fst kv) proto_key = false) own.
Proof.
  intros H. eapply Forall_impl; [|exact H]. simpl. intros kv [Hk _]. exact Hk.
Qed.

(** Shape preservation for every Value in which no mapping has the key
    [__proto__]. *)
Lemma maskObject_same_shape (v config : value) :
  is_value v -> well_formed v -> proto_free v ->
  same_shape v (maskObject v config).
Proof.
  induction v as [| | | | | | |items IH|cls own IH] using value_induction;
    intros Hv Hwf Hpf; try (apply shape_leaf; [reflexivity|discriminate]).
  - apply shape_string.
  - inversion Hv; inversion Hwf; inversion Hpf; subst; try discriminate.
    simpl. apply shape_array.
    induction items as [|x items IHitems]; simpl; constructor.
    + apply (Forall_inv IH); eapply Forall_inv; eassumption.
    + apply IHitems; try (eapply Forall_inv_tail; eassumption);
        constructor; eapply Forall_inv_tail; eassumption.
  - inversion Hv as [| | | | | |own' Hvs]; inversion Hwf; inversion Hpf;
      subst; try discriminate.
    rewrite maskObject_object by (try apply proto_free_keys; assumption).
    apply shape_object.
    match goal with H : listing own |- _ => clear H end.
    clear Hv Hwf Hpf.
    induction own as [|[k x] own IHown]; simpl; constructor.
    + simpl. split; [reflexivity|].
      apply (Forall_inv IH);
        [ apply (Forall_inv Hvs)
        | match goal with H : Forall (fun kv => well_formed (snd kv)) _ |- _ =>
            apply (Forall_inv H) end
        | match goal with H : Forall (fun kv => _ /\ proto_free (snd kv)) _ |- _ =>
            apply (Forall_inv H) end ].
    + apply IHown; eapply Forall_inv_tail; eassumption.
Qed.

(** C1: a mapping with the key [__proto__] loses that key.  The assignment
    [masked[key] = ...] reaches the prototype accessor instead of defining
    a property, so the result lists one key fewer than the input.  Every
    Value without that key keeps its shape. *)
Theorem maskPII_drops_proto_key :
  (forall v config,
     is_value v -> well_formed v -> proto_free v ->
     same_shape v (maskObject v config)) /\
  is_value proto_sample /\ well_formed proto_sample /\
  maskPII proto_sample gate_on
    = Normal (VObject Plain [(u16 "id", VString (u16 "1"))]) /\
  (forall w, maskPII proto_sample gate_on = Normal w ->
             ~ same_shape proto_sample w).
Proof.
  split; [exact maskObject_same_shape|split; [|split; [|split]]].
  - repeat constructor.
  - apply wf_object; [reflexivity|].
    repeat constructor.
  - reflexivity.
  - intros w Hw. injection Hw as <-. intros Hshape.
    inversion Hshape as [| |cls xs ys Hall|]; subst.
    inversion Hall as [|? ? ? ? _ Htail]; subst.
    inversion Htail.
Qed.

(** ** The matcher against the declarative reading *)

Lemma last_nonempty (m : jsstring) (w u v : code_unit) :
  last (w :: m) u = last (w :: m) v.
Proof.
  revert w; induction m as [|x m IH]; intros w.
  - reflexivity.
  - change (last (x :: m) u = last (x :: m) v). apply IH.
Qed.

Lemma last_cons (m : jsstring) (v u : code_unit) :
  last (v :: m) u = last m v.
Proof.
  destruct m as [|x m]; [reflexivity|].
  change (last (x :: m) u = last (x :: m) v). apply last_nonempty.
Qed.

Lemma last_of_cons (u : code_unit) (m : jsstring) (prev : option code_unit) :
  last_of (u :: m) prev = last_of m (Some u).
Proof.
  destruct m as [|v m]; [reflexivity|].
  unfold last_of. f_equal. apply last_cons.
Qed.

Lemma last_of_app (m1 m2 : jsstring) (prev : option code_unit) :
  last_of (m1 ++ m2) prev = last_of m2 (last_of m1 prev).
Proof.
  revert prev; induction m1 as [|u m1 IH]; intros prev.
  - reflexivity.
  - change ((u :: m1) ++ m2) with (u :: (m1 ++ m2)).
    rewrite !last_of_cons. apply IH.
Qed.

Lemma first_of_app (m1 m2 : jsstring) (next : option code_unit) :
  first_of (m1 ++ m2) next = first_of m1 (first_of m2 next).
Proof. destruct m1; reflexivity. Qed.

Lemma hd_error_app (m rest : jsstring) :
  hd_error (m ++ rest) = first_of m (hd_error rest).
Proof. destruct m; reflexivity. Qed.

Section MatcherCorrect.
Variable A : Type.
Implicit Type k : continuation A.

Lemma repeat_class_sound cs k s :
  forall min max prev a,
    repeat_class cs min max prev s k = Some a ->
    within max min ->
    exists m rest,
      s = m ++ rest /\ matches (Rep cs min max) prev m (hd_error rest) /\
      k (last_of m prev) rest = Some a.
Proof.
  induction s as [|u s IH]; intros min max prev a H Hord.
  - assert (Hk : k prev [] = Some a /\ min = 0).
    { simpl in H. destruct max as [[|b]|], min; simpl in Hord;
        try discriminate H; try lia; auto. }
    destruct Hk as [Hk ->].
    exists [], []. simpl. repeat split; auto;
      try (destruct max; simpl in *; lia).
  - assert (Hstop : k prev (u :: s) = Some a -> min = 0 ->
              exists m rest, u :: s = m ++ rest /\
                matches (Rep cs min max) prev m (hd_error rest) /\
                k (last_of m prev) rest = Some a).
    { intros Hk ->. exists [], (u :: s). simpl. repeat split; auto;
        try (destruct max; simpl in *; lia). }
    simpl in H.
    destruct max as [[|b]|]; cbn [dec_max Nat.pred] in H.
    + apply Hstop; [exact H|]. simpl in Hord. lia.
    + destruct (class_mem cs u) eqn:Hu.
      * destruct (repeat_class cs (pred min) (Some b) (Some u) s k) eqn:Hrec.
        -- injection H as ->.
           apply IH in Hrec; [|simpl in *; lia].
           destruct Hrec as (m & rest & -> & (Hall & Hmin & Hmax) & Hk).
           exists (u :: m), rest. rewrite last_of_cons.
           repeat split; simpl in *; auto; lia.
        -- destruct min; [apply Hstop; auto|discriminate H].
      * destruct min; [apply Hstop; auto|discriminate H].
    + destruct (class_mem cs u) eqn:Hu.
      * destruct (repeat_class cs (pred min) None (Some u) s k) eqn:Hrec.
        -- injection H as ->.
           apply IH in Hrec; [|exact I].
           destruct Hrec as (m & rest & -> & (Hall & Hmin & Hmax) & Hk).
           exists (u :: m), rest. rewrite last_of_cons.
           repeat split; simpl in *; auto; lia.
        -- destruct min; [apply Hstop; auto|discriminate H].
      * destruct min; [apply Hstop; auto|discriminate H].
Qed.

Lemma repeat_class_complete cs k rest m :
  forall min max prev,
    matches (Rep cs min max) prev m (hd_error rest) ->
    k (last_of m prev) rest <> None ->
    repeat_class cs min max prev (m ++ rest) k <> None.
Proof.
  induction m as [|u m IH]; intros min max prev (Hall & Hmin & Hmax) Hk.
  - simpl in Hmin. assert (min = 0) as -> by lia. simpl in Hk |- *.
    destruct rest as [|v rest]; simpl.
    + destruct max as [[|b]|]; exact Hk.
    + destruct max as [[|b]|]; try exact Hk;
        destruct (class_mem cs v); try exact Hk;
        match goal with
        | |- match ?x with _ => _ end <> None =>
          destruct x; [discriminate|exact Hk]
        end.
  - rewrite last_of_cons in Hk.
    inversion Hall as [|? ? Hu Hall']; subst.
    assert (Hrec : forall max',
               within max' (length m) ->
               repeat_class cs (pred min) max' (Some u) (m ++ rest) k <> None).
    { intros max' Hmax'. apply IH; [|exact Hk].
      repeat split; simpl in *; auto; lia. }
    simpl. rewrite Hu.
    destruct max as [[|b]|]; simpl in Hmax; cbn [dec_max Nat.pred].
    + lia.
    + assert (Hb : within (Some b) (length m)) by (simpl; lia).
      specialize (Hrec (Some b) Hb).
      destruct (repeat_class cs (pred min) (Some b) (Some u) (m ++ rest) k);
        [discriminate|contradiction].
    + specialize (Hrec None I).
      destruct (repeat_class cs (pred min) None (Some u) (m ++ rest) k);
        [discriminate|contradiction].
Qed.

Lemma matcher_sound r :
  quantifiers_ok r = true ->
  forall k prev s a,
    matcher r prev s k = Some a ->
    exists m rest,
      s = m ++ rest /\ matches r prev m (hd_error rest) /\
      k (last_of m prev) rest = Some a.
Proof.
  induction r as [cs| |r1 IH1 r2 IH2|r1 IH1 r2 IH2|r1 IH1|cs min max];
    intros Hq k prev s a H; simpl in H, Hq.
  - destruct s as [|u s]; [discriminate|].
    destruct (class_mem cs u) eqn:Hu; [|discriminate].
    exists [u], s. simpl. repeat split; eauto.
  - destruct (xorb (word_at prev) (word_at (hd_error s))) eqn:Hb; [|discriminate].
    exists [], s. simpl. auto.
  - apply andb_true_iff in Hq as [Hq1 Hq2].
    apply (IH1 Hq1) in H as (m1 & rest1 & -> & Hm1 & H).
    apply (IH2 Hq2) in H as (m2 & rest & -> & Hm2 & H).
    exists (m1 ++ m2), rest. rewrite app_assoc, last_of_app.
    repeat split; auto.
    exists m1, m2. rewrite hd_error_app in Hm1. auto.
  - apply andb_true_iff in Hq as [Hq1 Hq2].
    destruct (matcher r1 prev s k) eqn:H1.
    + injection H as ->. apply (IH1 Hq1) in H1 as (m & rest & -> & Hm & Hk).
      exists m, rest. simpl. auto.
    + apply (IH2 Hq2) in H as (m & rest & -> & Hm & Hk).
      exists m, rest. simpl. auto.
  - match type of H with
    | match ?x with _ => _ end = _ => destruct x eqn:H1
    end.
    + injection H as ->. apply (IH1 Hq) in H1 as (m & rest & -> & Hm & Hk).
      destruct (length rest =? length (m ++ rest))%nat; [discriminate|].
      exists m, rest. simpl. auto.
    + exists [], s. simpl. auto.
  - apply repeat_class_sound in H; [exact H|].
    destruct max as [b|]; simpl; [|exact I].
    apply Nat.leb_le. exact Hq.
Qed.

Lemma matcher_complete r :
  forall k prev m rest,
    matches r prev m (hd_error rest) ->
    k (last_of m prev) rest <> None ->
    matcher r prev (m ++ rest) k <> None.
Proof.
  induction r as [cs| |r1 IH1 r2 IH2|r1 IH1 r2 IH2|r1 IH1|cs min max];
    intros k prev m rest Hm Hk; simpl in Hm |- *.
  - destruct Hm as (u & -> & Hu). simpl. rewrite Hu. exact Hk.
  - destruct Hm as (-> & Hb). simpl. rewrite Hb. exact Hk.
  - destruct Hm as (m1 & m2 & -> & Hm1 & Hm2).
    rewrite <- app_assoc. apply IH1.
    + rewrite hd_error_app. exact Hm1.
    + apply IH2; [exact Hm2|]. rewrite <- last_of_app. exact Hk.
  - destruct Hm as [Hm|Hm].
    + specialize (IH1 k prev m rest Hm Hk).
      destruct (matcher r1 prev (m ++ rest) k); [discriminate|contradiction].
    + destruct (matcher r1 prev (m ++ rest) k); [discriminate|].
      apply IH2; assumption.
  - match goal with
    | |- match ?x with _ => _ end <> None => destruct x eqn:H1
    end; [discriminate|].
    destruct m as [|u m].
    + exact Hk.
    + destruct Hm as [Hm|Hm]; [discriminate|]. exfalso.
      revert H1. apply IH1; [exact Hm|].
      replace (length rest =? length ((u :: m) ++ rest))%nat with false;
        [exact Hk|].
      symmetry. apply Nat.eqb_neq. rewrite length_app. simpl. lia.
  - apply repeat_class_complete; assumption.
Qed.
End MatcherCorrect.

Lemma match_here_sound r prev s m rest :
  quantifiers_ok r = true ->
  match_here r prev s = Some (m, rest) ->
  s = m ++ rest /\ matches r prev m (hd_error rest).
Proof.
  intros Hq H. unfold match_here in H.
  destruct (matcher r prev s (fun _ rest0 => Some rest0)) as [rest0|] eqn:E;
    [|discriminate].
  injection H as <- <-.
  apply matcher_sound in E as (m & rest & -> & Hm & Hk); [|exact Hq].
  injection Hk as <-.
  rewrite length_app, Nat.add_sub, firstn_app, Nat.sub_diag, firstn_all.
  simpl. rewrite app_nil_r. auto.
Qed.

Lemma match_here_complete r prev m rest :
  matches r prev m (hd_error rest) ->
  match_here r prev (m ++ rest) <> None.
Proof.
  intros Hm. unfold match_here.
  pose proof (@matcher_complete _ r (fun _ rest0 => Some rest0) prev m rest Hm)
    as H.
  destruct (matcher r prev (m ++ rest) (fun _ rest0 => Some rest0));
    [discriminate|].
  exfalso. apply H; [discriminate|reflexivity].
Qed.

(** ** What the shape of a pattern says about its matches *)

Lemma word_at_first_of (m : jsstring) (n n' : option code_unit) :
  word_at n = word_at n' -> word_at (first_of m n) = word_at (first_of m n').
Proof. destruct m; auto. Qed.

Lemma word_at_last_of (m : jsstring) (p p' : option code_unit) :
  word_at p = word_at p' -> word_at (last_of m p) = word_at (last_of m p').
Proof. destruct m; auto. Qed.

(** A match looks at its context only through [\b]. *)
Lemma matches_context r :
  forall prev prev' m next next',
    word_at prev = word_at prev' -> word_at next = word_at next' ->
    matches r prev m next -> matches r prev' m next'.
Proof.
  induction r as [cs| |r1 IH1 r2 IH2|r1 IH1 r2 IH2|r1 IH1|cs min max];
    intros prev prev' m next next' Hp Hn H; simpl in H |- *.
  - exact H.
  - destruct H as [-> Hb]. rewrite <- Hp, <- Hn. auto.
  - destruct H as (m1 & m2 & -> & H1 & H2). exists m1, m2.
    repeat split.
    + eapply IH1; [exact Hp| |exact H1]. apply word_at_first_of, Hn.
    + eapply IH2; [|exact Hn|exact H2]. apply word_at_last_of, Hp.
  - destruct H as [H|H]; [left; eapply IH1|right; eapply IH2]; eauto.
  - destruct H as [H|H]; [left; exact H|right; eapply IH1; eauto].
  - exact H.
Qed.

Lemma matches_mentions r :
  forall prev m next,
    matches r prev m next -> Forall (fun u => mentions r u = true) m.
Proof.
  induction r as [cs| |r1 IH1 r2 IH2|r1 IH1 r2 IH2|r1 IH1|cs min max];
    intros prev m next H; simpl in H |- *.
  - destruct H as (u & -> & Hu). constructor; auto.
  - destruct H as [-> _]. constructor.
  - destruct H as (m1 & m2 & -> & H1 & H2). apply Forall_app. split.
    + eapply Forall_impl; [|eapply IH1; exact H1].
      simpl. intros u Hu. rewrite Hu. reflexivity.
    + eapply Forall_impl; [|eapply IH2; exact H2].
      simpl. intros u Hu. rewrite Hu. apply orb_true_r.
  - destruct H as [H|H].
    + eapply Forall_impl; [|eapply IH1; exact H].
      simpl. intros u Hu. rewrite Hu. reflexivity.
    + eapply Forall_impl; [|eapply IH2; exact H].
      simpl. intros u Hu. rewrite Hu. apply orb_true_r.
  - destruct H as [->|H]; [constructor|eapply IH1; exact H].
  - destruct H as [H _]. exact H.
Qed.

Lemma matches_min_length r :
  forall prev m next, matches r prev m next -> min_length r <= length m.
Proof.
  induction r as [cs| |r1 IH1 r2 IH2|r1 IH1 r2 IH2|r1 IH1|cs min max];
    intros prev m next H; simpl in H |- *.
  - destruct H as (u & -> & _). simpl. lia.
  - lia.
  - destruct H as (m1 & m2 & -> & H1 & H2).
    apply IH1 in H1. apply IH2 in H2. rewrite length_app. lia.
  - destruct H as [H|H]; [apply IH1 in H|apply IH2 in H]; lia.
  - lia.
  - destruct H as (_ & H & _). exact H.
Qed.

Lemma matches_anchored_start r prev m next :
  anchored_start r = true -> matches r prev m next ->
  xorb (word_at prev) (word_at (first_of m next)) = true.
Proof.
  destruct r as [cs| |r1 r2|r1 r2|r1|cs min max]; try discriminate.
  - intros _ [-> Hb]. exact Hb.
  - destruct r1; try discriminate.
    intros _ (m1 & m2 & -> & [-> Hb] & _). exact Hb.
Qed.

Lemma matches_anchored_end r :
  forall prev m next,
    anchored_end r = true -> matches r prev m next ->
    xorb (word_at (last_of m prev)) (word_at next) = true.
Proof.
  induction r as [cs| |r1 IH1 r2 IH2|r1 IH1 r2 IH2|r1 IH1|cs min max];
    intros prev m next Ha H; try discriminate; simpl in Ha, H.
  - destruct H as [-> Hb]. exact Hb.
  - destruct H as (m1 & m2 & -> & _ & H2).
    rewrite last_of_app. apply IH2; assumption.
Qed.

(** The facts about a whole-word match that the argument uses. *)
Lemma bounded_matches r prev m next :
  bounded r = true -> matches r prev m next ->
  2 <= length m /\ Forall (fun u => u <> star) m /\
  xorb (word_at prev) (word_at (first_of m next)) = true /\
  xorb (word_at (last_of m prev)) (word_at next) = true.
Proof.
  unfold bounded. intros Hb H.
  apply andb_true_iff in Hb as [Hb Hstar].
  apply andb_true_iff in Hb as [Hb Hlen].
  apply andb_true_iff in Hb as [Hb Hend].
  apply andb_true_iff in Hb as [Hq Hstart].
  repeat split.
  - pose proof (matches_min_length _ _ _ _ H).
    apply Nat.leb_le in Hlen. lia.
  - eapply Forall_impl; [|eapply matches_mentions; exact H].
    simpl. intros u Hu ->. rewrite Hu in Hstar. discriminate.
  - exact (matches_anchored_start _ _ _ _ Hstart H).
  - exact (matches_anchored_end _ _ _ _ Hend H).
Qed.

Lemma bounded_quantifiers_ok r : bounded r = true -> quantifiers_ok r = true.
Proof.
  unfold bounded. intros Hb.
  repeat (apply andb_true_iff in Hb as [Hb ?]). exact Hb.
Qed.

(** ** What [scan] returns *)

Lemma scan_original r :
  quantifiers_ok r = true ->
  forall fuel prev s, flat_map original (scan fuel r prev s) = s.
Proof.
  intros Hq. induction fuel as [|fuel IH]; intros prev s; simpl.
  - induction s as [|u s IHs]; simpl; [reflexivity|]. f_equal. exact IHs.
  - destruct (match_here r prev s) as [[[|u m] rest]|] eqn:E.
    + apply match_here_sound in E as [-> _]; [|exact Hq]. simpl.
      destruct rest as [|u s]; simpl; [reflexivity|]. f_equal. apply IH.
    + apply match_here_sound in E as [-> _]; [|exact Hq].
      simpl. f_equal. rewrite IH. reflexivity.
    + destruct s as [|u s]; simpl; [reflexivity|]. f_equal. apply IH.
Qed.

Lemma scan_scanned r :
  quantifiers_ok r = true -> 1 <= min_length r ->
  forall fuel prev s,
    length s < fuel -> scanned r prev s (scan fuel r prev s).
Proof.
  intros Hq Hmin. induction fuel as [|fuel IH]; intros prev s Hfuel; [lia|].
  simpl. destruct (match_here r prev s) as [[[|u m] rest]|] eqn:E.
  - apply match_here_sound in E as [_ Hm]; [|exact Hq].
    pose proof (matches_min_length _ _ _ _ Hm) as Hlen. simpl in Hlen. lia.
  - apply match_here_sound in E as [-> Hm]; [|exact Hq].
    apply scanned_hit; [discriminate|exact Hm|].
    apply IH. rewrite length_app in Hfuel. simpl in Hfuel. lia.
  - destruct s as [|u s]; constructor; [exact E|].
    apply IH. simpl in Hfuel. lia.
Qed.

Lemma scanned_original r prev s ps :
  scanned r prev s ps -> flat_map original ps = s.
Proof.
  induction 1; simpl; [reflexivity|f_equal; assumption|f_equal; assumption].
Qed.

(** On a text without matches [scan] keeps every code unit, so [replace]
    returns the text. *)
Lemma scan_clean r :
  forall fuel prev s, clean r prev s -> scan fuel r prev s = map Keep s.
Proof.
  induction fuel as [|fuel IH]; intros prev s Hclean; simpl; [reflexivity|].
  pose proof (Hclean [] s eq_refl) as Hhere. simpl in Hhere. rewrite Hhere.
  destruct s as [|u s]; simpl; [reflexivity|]. f_equal.
  apply IH. intros v w ->.
  specialize (Hclean (u :: v) w eq_refl).
  rewrite last_of_cons in Hclean. exact Hclean.
Qed.

Lemma render_keep rp s : flat_map (render rp) (map Keep s) = s.
Proof.
  induction s as [|u s IH]; simpl; [reflexivity|]. f_equal. exact IH.
Qed.

Lemma replace_clean r rp s : clean r None s -> replace r rp s = s.
Proof.
  intros H. unfold replace. rewrite (scan_clean r _ _ _ H). apply render_keep.
Qed.

(** ** Matches in a rewritten text

    A whole-word match found in the text that a whole-word rule with a
    guarded placeholder has rewritten lies between the placeholders, and
    was a match at a kept position of the text before the rewriting. *)

Lemma guarded_tail (c : code_unit) (text : jsstring) :
  guarded (c :: text) = true -> guarded text = true.
Proof.
  simpl. destruct text as [|d text]; [reflexivity|].
  intros H. apply andb_true_iff in H as [_ H]. exact H.
Qed.

Lemma guarded_split (text : jsstring) :
  forall (x u' m rest' : jsstring),
    guarded text = true ->
    text ++ x = u' ++ m ++ rest' ->
    Forall (fun u => u <> star) m -> 2 <= length m ->
    exists u'', u' = text ++ u'' /\ x = u'' ++ m ++ rest'.
Proof.
  induction text as [|c text IH]; intros x u' m rest' Hg Heq Hm Hlen.
  - exists u'. auto.
  - destruct u' as [|c' u'].
    + exfalso. destruct m as [|m0 [|m1 m]]; simpl in Hlen; try lia.
      simpl in Heq. injection Heq as -> Heq.
      inversion Hm as [|? ? Hm0 Hm']; subst.
      inversion Hm' as [|? ? Hm1 _]; subst.
      simpl in Hg. destruct text as [|d text].
      * apply N.eqb_eq in Hg. contradiction.
      * simpl in Heq. injection Heq as -> _.
        apply andb_true_iff in Hg as [Hg _].
        apply orb_true_iff in Hg as [Hg|Hg]; apply N.eqb_eq in Hg;
          contradiction.
    + simpl in Heq. injection Heq as -> Heq.
      destruct (IH x u' m rest' (guarded_tail _ _ Hg) Heq Hm Hlen)
        as (u'' & -> & ->).
      exists u''. auto.
Qed.

Lemma guarded_last (text : jsstring) :
  forall prev, guarded text = true -> text <> [] ->
               last_of text prev = Some star.
Proof.
  induction text as [|c text IH]; intros prev Hg Hne; [contradiction|].
  rewrite last_of_cons. destruct text as [|d text].
  - simpl in Hg. apply N.eqb_eq in Hg. subst. reflexivity.
  - apply IH; [|discriminate]. exact (guarded_tail _ _ Hg).
Qed.

Lemma star_not_word : word_at (Some star) = false.
Proof. reflexivity. Qed.

Lemma last_of_nonempty (m : jsstring) (p p' : option code_unit) :
  m <> [] -> last_of m p = last_of m p'.
Proof. destruct m; [contradiction|reflexivity]. Qed.

Section Rewritten.
Variables (r' : regex) (text : jsstring).
Hypothesis Hr' : bounded r' = true.
Hypothesis Htext : placeholder_ok text = true.

Lemma placeholder_star : exists text', text = star :: text'.
Proof.
  unfold placeholder_ok in Htext. destruct text as [|c text']; [discriminate|].
  apply andb_true_iff in Htext as [Hc _]. apply N.eqb_eq in Hc.
  subst. eauto.
Qed.

Lemma placeholder_guarded : guarded text = true.
Proof.
  unfold placeholder_ok in Htext. destruct text; [discriminate|].
  apply andb_true_iff in Htext as [_ H]. exact H.
Qed.

Lemma placeholder_last prev : last_of text prev = Some star.
Proof.
  apply guarded_last; [apply placeholder_guarded|].
  destruct placeholder_star as [text' ->]. discriminate.
Qed.

(** Text without an asterisk at the start of the rewritten text is made of
    kept code units. *)
Lemma keep_prefix (m : jsstring) :
  forall q s ps rest',
    scanned r' q s ps -> rendered text ps = m ++ rest' ->
    Forall (fun u => u <> star) m ->
    exists s2 ps2,
      s = m ++ s2 /\ scanned r' (last_of m q) s2 ps2 /\ rendered text ps2 = rest'.
Proof.
  induction m as [|u m IH]; intros q s ps rest' Hsc Heq Hm.
  - exists s, ps. auto.
  - inversion Hm as [|? ? Hu Hm']; subst.
    inversion Hsc as [|? c s' ps' Hnone Hsc'|? m' s' ps' Hne Hm0 Hsc']; subst.
    + discriminate Heq.
    + simpl in Heq. injection Heq as -> Heq.
      destruct (IH (Some u) s' ps' rest' Hsc' Heq Hm') as (s2 & ps2 & -> & H2 & H3).
      exists s2, ps2. rewrite last_of_cons. auto.
    + exfalso. destruct placeholder_star as [text' Ht].
      unfold rendered in Heq. simpl in Heq. rewrite Ht in Heq.
      injection Heq as Heq _. apply Hu. symmetry. exact Heq.
Qed.

(** After a word character, the rewritten and the original text go on with
    code units of the same kind. *)
Lemma next_context q s ps :
  scanned r' q s ps ->
  xorb (word_at q) (word_at (hd_error (rendered text ps))) = true ->
  word_at (hd_error (rendered text ps)) = word_at (hd_error s).
Proof.
  intros Hsc Hq.
  inversion Hsc as [|? c s' ps' Hnone Hsc'|? m' s' ps' Hne Hm0 Hsc']; subst.
  - reflexivity.
  - reflexivity.
  - destruct placeholder_star as [text' Ht].
    unfold rendered in Hq |- *. simpl in Hq |- *. rewrite Ht in Hq |- *.
    simpl in Hq |- *. fold star in Hq |- *.
    destruct (bounded_matches _ _ _ _ Hr' Hm0) as (_ & _ & Hstart & _).
    rewrite hd_error_app.
    change (is_word star) with false in Hq |- *.
    rewrite xorb_false_r in Hq. rewrite Hq in Hstart.
    simpl in Hstart. apply negb_true_iff in Hstart. symmetry. exact Hstart.
Qed.

Section MatchInRewritten.
Variable r : regex.
Hypothesis Hr : bounded r = true.

Lemma pullback p s ps :
  scanned r' p s ps ->
  forall p' u' m rest',
    context_ok p p' s ->
    rendered text ps = u' ++ m ++ rest' ->
    matches r (last_of u' p') m (hd_error rest') ->
    exists ps1 c ps2,
      ps = ps1 ++ Keep c :: ps2 /\
      match_here r (last_of (flat_map original ps1) p)
                 (c :: flat_map original ps2) <> None.
Proof.
  induction 1 as [p|p u s ps Hnone Hsc IH|p m0 s ps Hne Hm0 Hsc IH];
    intros p' u' m rest' Hctx Heq Hm;
    destruct (bounded_matches _ _ _ _ Hr Hm) as (Hlen & Hstar & Hstart & Hend).
  - exfalso. destruct u'; [|discriminate Heq].
    destruct m; [simpl in Hlen; lia|discriminate Heq].
  - destruct u' as [|u0 u'].
    + destruct m as [|u0 m]; [simpl in Hlen; lia|].
      simpl in Heq. injection Heq as <- Heq.
      inversion Hstar as [|? ? _ Hstar']; subst.
      destruct (@keep_prefix m _ _ _ _ Hsc Heq Hstar') as (s2 & ps2 & -> & Hsc2 & Hrest).
      exists [], u, ps. split; [reflexivity|].
      rewrite (scanned_original _ _ _ _ Hsc). simpl last_of.
      change (u :: m ++ s2) with ((u :: m) ++ s2).
      apply match_here_complete.
      simpl last_of in Hm, Hstart. simpl first_of in Hstart.
      eapply matches_context; [| |exact Hm].
      * destruct Hctx as [->|[Hp' Hp]]; [reflexivity|].
        rewrite Hp' in Hstart |- *. simpl in Hp, Hstart.
        rewrite Hstart in Hp. rewrite xorb_true_r in Hp.
        apply negb_true_iff in Hp. simpl. symmetry. exact Hp.
      * rewrite <- Hrest. apply next_context with (q := last_of m (Some u)).
        -- exact Hsc2.
        -- rewrite Hrest. rewrite <- last_of_cons with (prev := p'). exact Hend.
    + simpl in Heq. injection Heq as <- Heq.
      rewrite last_of_cons in Hm.
      destruct (IH (Some u) u' m rest' (or_introl eq_refl) Heq Hm)
        as (ps1 & c & ps2 & -> & Hmatch).
      exists (Keep u :: ps1), c, ps2. split; [reflexivity|].
      simpl flat_map. change ([u] ++ flat_map original ps1)
        with (u :: flat_map original ps1).
      rewrite last_of_cons. exact Hmatch.
  - unfold rendered in Heq. simpl in Heq. fold (rendered text ps) in Heq.
    destruct (guarded_split _ _ _ _ _ placeholder_guarded Heq Hstar Hlen)
      as (u'' & -> & Heq').
    rewrite last_of_app, placeholder_last in Hm.
    assert (Hctx' : context_ok (last_of m0 p) (Some star) s).
    { right. split; [exact star_not_word|].
      destruct (bounded_matches _ _ _ _ Hr' Hm0) as (_ & _ & _ & H0).
      exact H0. }
    destruct (IH (Some star) u'' m rest' Hctx' Heq' Hm)
      as (ps1 & c & ps2 & -> & Hmatch).
    exists (Hit m0 :: ps1), c, ps2. split; [reflexivity|].
    simpl flat_map. rewrite last_of_app. exact Hmatch.
Qed.

Lemma scanned_keep_none ps1 :
  forall p s c ps2,
    scanned r' p s (ps1 ++ Keep c :: ps2) ->
    s = flat_map original ps1 ++ c :: flat_map original ps2 /\
    match_here r' (last_of (flat_map original ps1) p)
               (c :: flat_map original ps2) = None.
Proof.
  induction ps1 as [|piece ps1 IH]; intros p s c ps2 Hsc.
  - simpl in Hsc |- *.
    inversion Hsc as [|? ? s' ? Hnone Hsc'|]; subst.
    rewrite (scanned_original _ _ _ _ Hsc'). auto.
  - simpl in Hsc.
    inversion Hsc as [|? u s' ? Hnone Hsc'|? m s' ? Hne Hm Hsc']; subst.
    + destruct (IH _ _ _ _ Hsc') as [-> Hn].
      simpl flat_map. change ([u] ++ flat_map original ps1)
        with (u :: flat_map original ps1).
      rewrite last_of_cons. auto.
    + destruct (IH _ _ _ _ Hsc') as [-> Hn].
      simpl flat_map. rewrite last_of_app, <- app_assoc. auto.
Qed.

Lemma scan_replace t :
  scanned r' None t (scan (S (length t)) r' None t) /\
  replace r' (Constant text) t = rendered text (scan (S (length t)) r' None t).
Proof.
  split; [|reflexivity].
  apply scan_scanned; [apply bounded_quantifiers_ok; exact Hr'| |lia].
  unfold bounded in Hr'.
  apply andb_true_iff in Hr' as [H _].
  apply andb_true_iff in H as [_ H]. apply Nat.leb_le in H. lia.
Qed.

(** Rewriting with [r'] creates no match of [r]. *)
Lemma clean_preserved t :
  clean r None t -> clean r None (replace r' (Constant text) t).
Proof.
  intros Hclean u' w' Heq.
  destruct (match_here r (last_of u' None) w') as [[m rest']|] eqn:E;
    [exfalso|reflexivity].
  apply match_here_sound in E as [-> Hm];
    [|apply bounded_quantifiers_ok; exact Hr].
  destruct (scan_replace t) as [Hsc Hrep]. rewrite Hrep in Heq.
  destruct (@pullback _ _ _ Hsc None u' m rest' (or_introl eq_refl) Heq Hm)
    as (ps1 & c & ps2 & Hps & Hmatch).
  rewrite Hps in Hsc. apply scanned_keep_none in Hsc as [Ht _].
  apply Hmatch. apply Hclean. exact Ht.
Qed.
End MatchInRewritten.

(** After rewriting with [r'] no match of [r'] is left. *)
Lemma clean_established t : clean r' None (replace r' (Constant text) t).
Proof.
  intros u' w' Heq.
  destruct (match_here r' (last_of u' None) w') as [[m rest']|] eqn:E;
    [exfalso|reflexivity].
  apply match_here_sound in E as [-> Hm];
    [|apply bounded_quantifiers_ok; exact Hr'].
  destruct (scan_replace t) as [Hsc Hrep]. rewrite Hrep in Heq.
  destruct (@pullback r' Hr' _ _ _ Hsc None u' m rest' (or_introl eq_refl) Heq Hm)
    as (ps1 & c & ps2 & Hps & Hmatch).
  rewrite Hps in Hsc. apply scanned_keep_none in Hsc as [_ Hnone].
  apply Hmatch. exact Hnone.
Qed.
End Rewritten.

(** ** Masking twice *)

Lemma good_rule_parts (rl : rule) :
  good_rule rl = true ->
  bounded (pattern rl) = true /\
  exists text, replacement rl = Constant text /\ placeholder_ok text = true.
Proof.
  unfold good_rule. intros H. apply andb_true_iff in H as [Hb Hp].
  split; [exact Hb|].
  destruct (replacement rl) as [text|f]; [|discriminate]. eauto.
Qed.

Lemma fold_clean (rules : list (jsstring * rule)) :
  Forall (fun entry => good_rule (snd entry) = true) rules ->
  forall r t,
    bounded r = true ->
    clean r None t \/ (exists entry, In entry rules /\ pattern (snd entry) = r) ->
    clean r None (fold_left apply_rule rules t).
Proof.
  induction rules as [|entry rules IH]; intros Hgood r t Hr H; simpl.
  - destruct H as [H|(entry & [] & _)]. exact H.
  - inversion Hgood as [|? ? Hentry Hrules]; subst.
    destruct (good_rule_parts _ Hentry) as (Hb & text & Htext & Hok).
    apply IH; [exact Hrules|exact Hr|].
    unfold apply_rule at 1. rewrite Htext.
    destruct H as [H|(entry' & [<-|Hin] & Hpat)].
    + left. apply clean_preserved; assumption.
    + left. rewrite <- Hpat. apply clean_established; assumption.
    + right. eauto.
Qed.

Lemma fold_fixed (rules : list (jsstring * rule)) (t : jsstring) :
  (forall entry, In entry rules -> clean (pattern (snd entry)) None t) ->
  fold_left apply_rule rules t = t.
Proof.
  induction rules as [|entry rules IH]; intros H; simpl; [reflexivity|].
  unfold apply_rule at 2. rewrite replace_clean.
  - apply IH. intros entry' Hin. apply H. right. exact Hin.
  - apply H. left. reflexivity.
Qed.

(** A registry of whole-word rules with guarded placeholders rewrites a
    string once and for all. *)
Lemma good_rules_idempotent (rules : list (jsstring * rule)) (s : jsstring) :
  Forall (fun entry => good_rule (snd entry) = true) rules ->
  fold_left apply_rule rules (fold_left apply_rule rules s)
  = fold_left apply_rule rules s.
Proof.
  intros Hgood. apply fold_fixed. intros entry Hin.
  apply fold_clean; [exact Hgood| |right; eauto].
  apply (proj1 (Forall_forall _ _) Hgood) in Hin.
  apply good_rule_parts in Hin as [Hb _]. exact Hb.
Qed.

(** *** Strings without an at sign *)

Lemma only_mem (cs : class) (u x : code_unit) :
  only cs u = true -> class_mem cs x = true -> x = u.
Proof.
  destruct cs as [|[c| | |] [|]]; simpl; try discriminate.
  intros H1 H2. rewrite orb_false_r in H2.
  apply N.eqb_eq in H1, H2. congruence.
Qed.

Lemma requires_matches (r : regex) (u : code_unit) :
  requires r u = true ->
  forall prev m next, matches r prev m next -> In u m.
Proof.
  induction r as [cs| |r1 IH1 r2 IH2|r1 IH1 r2 IH2|r1 IH1|cs min max];
    simpl; intros Hreq prev m next H; try discriminate.
  - destruct H as (x & -> & Hx). left. apply (only_mem cs u x Hreq Hx).
  - destruct H as (m1 & m2 & -> & H1 & H2). apply in_or_app.
    apply orb_true_iff in Hreq as [Hreq|Hreq]; [left|right]; eauto.
  - apply andb_true_iff in Hreq as [Hreq1 Hreq2].
    destruct H as [H|H]; eauto.
  - apply andb_true_iff in Hreq as [Hmin Honly].
    destruct min as [|min']; [discriminate Hmin|].
    destruct H as (Hall & Hlen & _).
    destruct m as [|x m]; [simpl in Hlen; lia|].
    left. apply (only_mem cs u x Honly). exact (Forall_inv Hall).
Qed.

Lemma requires_clean (r : regex) (u : code_unit) (prev : option code_unit)
    (t : jsstring) :
  quantifiers_ok r = true -> requires r u = true -> ~ In u t ->
  clean r prev t.
Proof.
  intros Hq Hreq Hfree v w ->.
  destruct (match_here r (last_of v prev) w) as [[m rest]|] eqn:E;
    [exfalso|reflexivity].
  apply match_here_sound in E as [-> Hm]; [|exact Hq].
  apply Hfree. apply in_or_app. right. apply in_or_app. left.
  exact (requires_matches r u Hreq _ _ _ Hm).
Qed.

Lemma rendered_free (u : code_unit) (text : jsstring) (ps : list piece) :
  ~ In u text -> ~ In u (flat_map original ps) -> ~ In u (rendered text ps).
Proof.
  intros Htext. induction ps as [|[c|m] ps IH]; simpl; intros Hs Hin.
  - exact Hin.
  - destruct Hin as [->|Hin]; [apply Hs; left; reflexivity|].
    apply IH; [|exact Hin]. intros H. apply Hs. right. exact H.
  - apply in_app_or in Hin as [Hin|Hin]; [exact (Htext Hin)|].
    apply IH; [|exact Hin]. intros H. apply Hs. apply in_or_app. right. exact H.
Qed.

Lemma replace_free (r : regex) (text : jsstring) (u : code_unit) (t : jsstring) :
  quantifiers_ok r = true -> ~ In u text -> ~ In u t ->
  ~ In u (replace r (Constant text) t).
Proof.
  intros Hq Htext Ht.
  change (replace r (Constant text) t)
    with (rendered text (scan (S (length t)) r None t)).
  apply rendered_free; [exact Htext|].
  rewrite (scan_original r Hq). exact Ht.
Qed.

Lemma not_existsb_eqb (u : code_unit) (text : jsstring) :
  negb (existsb (N.eqb u) text) = true -> ~ In u text.
Proof.
  intros H Hin. apply negb_true_iff in H.
  assert (Hex : existsb (N.eqb u) text = true).
  { apply existsb_exists. exists u. split; [exact Hin|apply N.eqb_refl]. }
  rewrite Hex in H. discriminate.
Qed.

Lemma settling_rule_parts (rl : rule) :
  settling_rule rl = true ->
  good_rule rl = true /\
  exists text, replacement rl = Constant text /\ ~ In at_sign text.
Proof.
  unfold settling_rule. intros H. apply andb_true_iff in H as [Hgood Hfree].
  split; [exact Hgood|].
  destruct (replacement rl) as [text|f]; [|discriminate].
  exists text. split; [reflexivity|]. apply not_existsb_eqb. exact Hfree.
Qed.

(** On a string without an at sign, the rules that need one do nothing and
    the others bring none in. *)
Lemma fold_at_free (rules : list (jsstring * rule)) :
  Forall (fun entry => tame_rule (snd entry) = true) rules ->
  forall t,
    at_free t ->
    fold_left apply_rule rules t
    = fold_left apply_rule
        (filter (fun entry => settling_rule (snd entry)) rules) t /\
    at_free (fold_left apply_rule rules t).
Proof.
  induction rules as [|entry rules IH]; intros Htame t Ht; simpl.
  - auto.
  - inversion Htame as [|? ? Hentry Hrules]; subst.
    destruct (settling_rule (snd entry)) eqn:Hs.
    + simpl. apply IH; [exact Hrules|].
      destruct (settling_rule_parts _ Hs) as (Hgood & text & Htext & Hfree).
      unfold apply_rule. rewrite Htext.
      apply replace_free; [|exact Hfree|exact Ht].
      apply bounded_quantifiers_ok.
      exact (proj1 (good_rule_parts _ Hgood)).
    + unfold tame_rule in Hentry. rewrite Hs in Hentry. simpl in Hentry.
      apply andb_true_iff in Hentry as [Hq Hreq].
      assert (Hsame : apply_rule t entry = t).
      { unfold apply_rule. apply replace_clean.
        exact (requires_clean _ _ None t Hq Hreq Ht). }
      rewrite Hsame. apply IH; assumption.
Qed.

Lemma tame_rules_idempotent (rules : list (jsstring * rule)) (s : jsstring) :
  Forall (fun entry => tame_rule (snd entry) = true) rules ->
  at_free s ->
  fold_left apply_rule rules (fold_left apply_rule rules s)
  = fold_left apply_rule rules s.
Proof.
  intros Htame Hs.
  destruct (fold_at_free rules Htame s Hs) as [E1 F1].
  destruct (fold_at_free rules Htame _ F1) as [E2 _].
  rewrite E2, E1. apply good_rules_idempotent.
  apply Forall_forall. intros entry Hin.
  apply filter_In in Hin as [_ Hin].
  exact (proj1 (settling_rule_parts _ Hin)).
Qed.

(** *** The registry *)

Lemma active_rules_good (config : value) :
  get config email_key = VBoolean false ->
  Forall (fun entry => good_rule (snd entry) = true) (active_rules config).
Proof.
  intros Hemail. apply Forall_forall. intros entry Hin.
  apply filter_In in Hin as [Hin Hflag].
  simpl in Hin.
  destruct Hin as [<-|[<-|[<-|[<-|[<-|[]]]]]]; try reflexivity.
  simpl in Hflag. fold email_key in Hflag. rewrite Hemail in Hflag.
  discriminate.
Qed.

Lemma active_rules_tame (config : value) :
  Forall (fun entry => tame_rule (snd entry) = true) (active_rules config).
Proof.
  apply Forall_forall. intros entry Hin.
  apply filter_In in Hin as [Hin _].
  simpl in Hin.
  destruct Hin as [<-|[<-|[<-|[<-|[<-|[]]]]]]; reflexivity.
Qed.

Lemma settled_without_email (config : value) (s : jsstring) :
  get config email_key = VBoolean false -> settled config s.
Proof.
  intros Hemail. unfold settled. rewrite !maskString_active. f_equal.
  apply good_rules_idempotent, active_rules_good, Hemail.
Qed.

Lemma settled_at_free (config : value) (s : jsstring) :
  at_free s -> settled config s.
Proof.
  intros Hs. unfold settled. rewrite !maskString_active. f_equal.
  apply tame_rules_idempotent; [apply active_rules_tame|exact Hs].
Qed.

(** *** From strings to values *)

Lemma strings_satisfy_all (P : jsstring -> Prop) (v : value) :
  (forall s, P s) -> strings_satisfy P v.
Proof.
  intros HP.
  induction v as [| | | | | | |items IH|cls own IH] using value_induction;
    try (apply ss_leaf; [reflexivity|discriminate]).
  - apply ss_string, HP.
  - apply ss_array. exact IH.
  - apply ss_object. exact IH.
Qed.

Lemma strings_satisfy_impl (P Q : jsstring -> Prop) (v : value) :
  (forall s, P s -> Q s) -> strings_satisfy P v -> strings_satisfy Q v.
Proof.
  intros HPQ.
  induction v as [| | | | | | |items IH|cls own IH] using value_induction;
    intros H; try (apply ss_leaf; [reflexivity|discriminate]).
  - inversion H; subst; [apply ss_string; auto|].
    match goal with Ht : typeof _ <> _ |- _ => exfalso; apply Ht; reflexivity end.
  - inversion H as [|? Hitems| |]; subst; [|discriminate].
    apply ss_array.
    induction items as [|x items IHitems]; constructor.
    + apply (Forall_inv IH), (Forall_inv Hitems).
    + apply IHitems;
        [exact (Forall_inv_tail IH)|constructor|]; exact (Forall_inv_tail Hitems).
  - inversion H as [| |? ? Hown|]; subst; [|discriminate].
    apply ss_object.
    clear H. induction own as [|kv own IHown]; constructor.
    + apply (Forall_inv IH), (Forall_inv Hown).
    + apply IHown; [exact (Forall_inv_tail IH)|exact (Forall_inv_tail Hown)].
Qed.

Lemma map_values_keys (f : value -> value) (own : props) :
  Forall (fun kv => jsstring_eqb (fst kv) proto_key = false) own ->
  Forall (fun kv => jsstring_eqb (fst kv) proto_key = false) (map_values f own).
Proof. intros H. unfold map_values. apply Forall_map. exact H. Qed.

Lemma maskObject_idempotent (config v : value) :
  strings_satisfy (settled config) v ->
  well_formed v -> proto_free v ->
  maskObject (maskObject v config) config = maskObject v config.
Proof.
  induction v as [| | | | | | |items IH|cls own IH] using value_induction;
    intros Hss Hwf Hpf; try reflexivity.
  - inversion Hss as [? Hs| | |]; subst; [exact Hs|].
    match goal with Ht : typeof _ <> _ |- _ => exfalso; apply Ht; reflexivity end.
  - inversion Hss as [|? Hsss| |]; inversion Hwf; inversion Hpf;
      subst; try discriminate.
    simpl. f_equal. rewrite map_map.
    induction items as [|x items IHitems]; simpl; [reflexivity|].
    f_equal.
    + apply (Forall_inv IH); eapply Forall_inv; eassumption.
    + apply IHitems; try (eapply Forall_inv_tail; eassumption);
        constructor; eapply Forall_inv_tail; eassumption.
  - inversion Hss as [| |? ? Hsss|]; inversion Hwf as [|? ? Hlist Hwfs|];
      inversion Hpf as [|? ? Hpfs|]; subst; try discriminate.
    pose proof (proto_free_keys _ Hpfs) as Hkeys.
    rewrite (maskObject_object cls own config Hkeys Hlist).
    rewrite maskObject_object;
      [|apply map_values_keys; exact Hkeys|apply listing_map_values; exact Hlist].
    f_equal. clear Hlist Hkeys Hwf Hpf Hss.
    induction own as [|[k x] own IHown]; simpl; [reflexivity|].
    f_equal.
    + f_equal. apply (Forall_inv IH).
      * apply (Forall_inv Hsss).
      * apply (Forall_inv Hwfs).
      * apply (Forall_inv Hpfs).
    + apply IHown; eapply Forall_inv_tail; eassumption.
Qed.


Ltac each_element :=
  repeat first [apply Forall_cons | apply Forall_nil].



(** ** The rules on the examples of the documentation *)

Lemma digit_is_word (u : code_unit) : is_digit u = true -> is_word u = true.
Proof.
  intros H. unfold is_word. rewrite H. rewrite orb_true_r. reflexivity.
Qed.

Lemma digits_match (n : nat) (prev : option code_unit) (m : jsstring)
    (next : option code_unit) :
  Forall (fun u => is_digit u = true) m -> length m = n ->
  matches (digits n) prev m next.
Proof.
  intros Hall Hlen. simpl. repeat split; try lia.
  eapply Forall_impl; [|exact Hall].
  simpl. intros u Hu. rewrite Hu. reflexivity.
Qed.

(** Two groups of four digits with a white space between them, standing
    between non-word positions, are a match of the phone pattern. *)
Lemma phone_matches_two_groups (prev next : option code_unit)
    (d1 d2 d3 d4 sp d5 d6 d7 d8 : code_unit) :
  Forall (fun u => is_digit u = true) [d1; d2; d3; d4; d5; d6; d7; d8] ->
  is_space sp = true ->
  word_at prev = false -> word_at next = false ->
  matches (pattern phone) prev [d1; d2; d3; d4; sp; d5; d6; d7; d8] next.
Proof.
  intros Hd Hsp Hprev Hnext.
  assert (H1 := Forall_inv Hd).
  assert (H8 : is_digit d8 = true).
  { do 7 apply Forall_inv_tail in Hd. exact (Forall_inv Hd). }
  cbn [pattern phone matches].
  exists [], [d1; d2; d3; d4; sp; d5; d6; d7; d8]. split; [reflexivity|]. split.
  { split; [reflexivity|]. simpl. rewrite Hprev, (digit_is_word _ H1). reflexivity. }
  exists [], [d1; d2; d3; d4; sp; d5; d6; d7; d8]. split; [reflexivity|]. split.
  { left. reflexivity. }
  exists [d1; d2; d3; d4; sp; d5; d6; d7; d8], []. split; [reflexivity|]. split.
  2:{ split; [reflexivity|]. simpl. rewrite Hnext, (digit_is_word _ H8). reflexivity. }
  left.
  inversion Hd as [|? ? Hd1 Hd']; subst. inversion Hd' as [|? ? Hd2 Hd'']; subst.
  inversion Hd'' as [|? ? Hd3 Hd3']; subst. inversion Hd3' as [|? ? Hd4 Hd4']; subst.
  inversion Hd4' as [|? ? Hd5 Hd5']; subst. inversion Hd5' as [|? ? Hd6 Hd6']; subst.
  inversion Hd6' as [|? ? Hd7 Hd7']; subst.
  exists [d1; d2], [d3; d4; sp; d5; d6; d7; d8]. split; [reflexivity|]. split.
  { apply digits_match; [repeat constructor; assumption|reflexivity]. }
  exists [], [d3; d4; sp; d5; d6; d7; d8]. split; [reflexivity|]. split.
  { left. reflexivity. }
  exists [d3; d4], [sp; d5; d6; d7; d8]. split; [reflexivity|]. split.
  { apply digits_match; [repeat constructor; assumption|reflexivity]. }
  exists [sp], [d5; d6; d7; d8]. split; [reflexivity|]. split.
  { right. exists sp. split; [reflexivity|]. simpl. rewrite Hsp. reflexivity. }
  exists [d5; d6], [d7; d8]. split; [reflexivity|]. split.
  { apply digits_match; [repeat constructor; assumption|reflexivity]. }
  exists [], [d7; d8]. split; [reflexivity|]. split.
  { left. reflexivity. }
  apply digits_match; [repeat constructor; assumption|reflexivity].
Qed.

(** So the phone rule finds a match wherever such a pair of groups starts,
    the first half of a space-separated card number among them. *)
Lemma phone_takes_two_groups (prev : option code_unit)
    (d1 d2 d3 d4 sp d5 d6 d7 d8 : code_unit) (rest : jsstring) :
  Forall (fun u => is_digit u = true) [d1; d2; d3; d4; d5; d6; d7; d8] ->
  is_space sp = true ->
  word_at prev = false -> word_at (hd_error rest) = false ->
  match_here (pattern phone) prev ([d1; d2; d3; d4; sp; d5; d6; d7; d8] ++ rest)
  <> None.
Proof.
  intros Hd Hsp Hprev Hnext.
  apply match_here_complete.
  apply phone_matches_two_groups; assumption.
Qed.

(** C3: on ["1234 5678 9012 3456"], with every flag at its default, the
    phone rule runs before the credit-card rule and rewrites both halves
    of the number, so the credit-card placeholder never appears; the phone
    rule finds a match at the start of every space-separated card number.
    With the phone rule off, without separators or with hyphens the
    credit-card rule does apply. *)
Theorem credit_card_spaced_taken_by_phone :
  maskPII (VString (u16 "1234 5678 9012 3456")) (config_of [])
    = Normal (VString (u16 "** ** ** ** ** ** ** **")) /\
  (forall prev d1 d2 d3 d4 sp d5 d6 d7 d8 rest,
     Forall (fun u => is_digit u = true) [d1; d2; d3; d4; d5; d6; d7; d8] ->
     is_space sp = true ->
     word_at prev = false -> word_at (hd_error rest) = false ->
     match_here (pattern phone) prev
                ([d1; d2; d3; d4; sp; d5; d6; d7; d8] ++ rest) <> None) /\
  maskPII (VString (u16 "1234 5678 9012 3456"))
          (config_of [(u16 "phone", VBoolean false)])
    = Normal (VString (u16 "**** **** **** ****")) /\
  maskPII (VString (u16 "1234-5678-9012-3456")) (config_of [])
    = Normal (VString (u16 "**** **** **** ****")) /\
  maskPII (VString (u16 "1234567890123456")) (config_of [])
    = Normal (VString (u16 "**** **** **** ****")).
Proof.
  split; [|split; [exact phone_takes_two_groups|split; [|split]]];
    vm_compute; reflexivity.
Qed.

(** The phone pattern starts with [\b], and a plus sign is no word
    character: a match can begin with the prefix only after a word
    character. *)
Lemma phone_prefix_needs_word_before (prev : option code_unit) (rest : jsstring) :
  word_at prev = false ->
  match_here (pattern phone) prev (cu "+" :: rest) = None.
Proof.
  intros Hprev.
  destruct (match_here (pattern phone) prev (cu "+" :: rest))
    as [[m rest']|] eqn:E; [exfalso|reflexivity].
  apply match_here_sound in E as [Heq Hm]; [|reflexivity].
  destruct (bounded_matches (pattern phone) _ _ _ eq_refl Hm)
    as (Hlen & _ & Hstart & _).
  destruct m as [|u m]; [simpl in Hlen; lia|].
  simpl in Heq. injection Heq as <- _.
  simpl in Hstart. rewrite Hprev in Hstart. discriminate Hstart.
Qed.

(** C4: on ["+45 12 34 56 78"] the phone rule cannot start at the plus sign,
    where [\b] does not hold; it matches ["45 12 34 56"] and leaves the
    plus sign and the last pair of digits.  The prefix is taken only when
    a word character precedes it. *)
Theorem phone_prefix_not_replaced :
  maskPII (VString (u16 "+45 12 34 56 78"))
          (config_of [(u16 "phone", VBoolean true)])
    = Normal (VString (u16 "+** ** ** ** 78")) /\
  (forall prev rest,
     word_at prev = false ->
     match_here (pattern phone) prev (cu "+" :: rest) = None) /\
  maskPII (VString (u16 "tel+45 12 34 56 78"))
          (config_of [(u16 "phone", VBoolean true)])
    = Normal (VString (u16 "tel** ** ** **")).
Proof.
  split; [|split].
  - vm_compute. reflexivity.
  - exact phone_prefix_needs_word_before.
  - vm_compute. reflexivity.
Qed.

(** *** The email rule *)

Lemma split_without (sep : code_unit) (s : jsstring) :
  ~ In sep s -> split sep s = [s].
Proof.
  induction s as [|u s IH]; intros H; simpl; [reflexivity|].
  destruct (u =? sep)%N eqn:E.
  - apply N.eqb_eq in E. exfalso. apply H. left. exact E.
  - rewrite IH; [reflexivity|]. intros Hin. apply H. right. exact Hin.
Qed.

Lemma split_at (sep : code_unit) (a b : jsstring) :
  ~ In sep a -> split sep (a ++ sep :: b) = a :: split sep b.
Proof.
  induction a as [|u a IH]; intros H; simpl.
  - rewrite N.eqb_refl. reflexivity.
  - destruct (u =? sep)%N eqn:E.
    + apply N.eqb_eq in E. exfalso. apply H. left. exact E.
    + rewrite IH; [reflexivity|]. intros Hin. apply H. right. exact Hin.
Qed.

Lemma class_excludes (cs : class) (u : code_unit) (m : jsstring) :
  class_mem cs u = false ->
  Forall (fun x => class_mem cs x = true) m -> ~ In u m.
Proof.
  intros Hu Hall Hin.
  apply (proj1 (Forall_forall _ _) Hall) in Hin. congruence.
Qed.

Lemma singleton_class (c : ascii) (u : code_unit) :
  class_mem [Chr c] u = true -> u = cu c.
Proof.
  simpl. rewrite orb_false_r. apply N.eqb_eq.
Qed.

(** Every match of the email pattern is a local part, an at sign, a domain,
    a dot and a last label of two or more code units of [[A-Z|a-z]]; its
    replacement keeps the first two code units of the local part and
    everything from the at sign on. *)
Lemma email_match_form (prev : option code_unit) (m : jsstring)
    (next : option code_unit) :
  matches (pattern email) prev m next ->
  exists local domain tld,
    m = local ++ at_sign :: domain ++ cu "." :: tld /\
    Forall (fun u => class_mem local_class u = true) local /\ local <> [] /\
    Forall (fun u => class_mem domain_class u = true) domain /\ domain <> [] /\
    Forall (fun u => class_mem tld_class u = true) tld /\ 2 <= length tld /\
    email_replacement m
    = substring0 2 local ++ u16 "***@" ++ domain ++ cu "." :: tld.
Proof.
  intros H. cbn [pattern email matches lit] in H.
  destruct H as (m0 & m1 & -> & [-> _] & H).
  destruct H as (local & m2 & -> & (Hlocal & Hlen & _) & H).
  destruct H as (a & m3 & -> & (ua & -> & Hua) & H).
  destruct H as (domain & m4 & -> & (Hdomain & Hdlen & _) & H).
  destruct H as (d & m5 & -> & (ud & -> & Hud) & H).
  destruct H as (tld & m6 & -> & (Htld & Htlen & _) & [-> _]).
  apply singleton_class in Hua, Hud. subst ua ud.
  exists local, domain, tld.
  assert (Hrest : ~ In at_sign (domain ++ cu "." :: tld)).
  { intros Hin. apply in_app_or in Hin as [Hin|[Hin|Hin]].
    - revert Hin. apply (class_excludes domain_class); [reflexivity|exact Hdomain].
    - discriminate Hin.
    - revert Hin. apply (class_excludes tld_class); [reflexivity|exact Htld]. }
  assert (Hloc : ~ In at_sign local)
    by (apply (class_excludes local_class); [reflexivity|exact Hlocal]).
  cbn [app]. rewrite app_nil_r.
  repeat split; try assumption.
  - intros ->. simpl in Hlen. lia.
  - intros ->. simpl in Hdlen. lia.
  - unfold email_replacement. fold at_sign.
    rewrite (split_at at_sign local _ Hloc), (split_without at_sign _ Hrest).
    reflexivity.
Qed.

(** C5: the email rule turns ["john.doe@example.com"] into
    ["jo***@example.com"], and every match it finds has the form
    local@domain.label and is replaced as the specification says; but the
    class of
    the last label is [[A-Z|a-z]], so the rule also matches ["a@b.c|d"],
    where what follows the final dot is not made of letters. *)
Theorem email_tld_accepts_bar :
  maskPII (VString (u16 "john.doe@example.com"))
          (config_of [(u16 "email", VBoolean true)])
    = Normal (VString (u16 "jo***@example.com")) /\
  (forall prev s m rest,
     match_here (pattern email) prev s = Some (m, rest) ->
     exists local domain tld,
       m = local ++ at_sign :: domain ++ cu "." :: tld /\
       Forall (fun u => class_mem local_class u = true) local /\ local <> [] /\
       Forall (fun u => class_mem domain_class u = true) domain /\ domain <> [] /\
       Forall (fun u => class_mem tld_class u = true) tld /\ 2 <= length tld /\
       email_replacement m
       = substring0 2 local ++ u16 "***@" ++ domain ++ cu "." :: tld) /\
  class_mem tld_class (cu "|") = true /\
  match_here (pattern email) None (u16 "a@b.c|d") = Some (u16 "a@b.c|d", []) /\
  maskPII (VString (u16 "a@b.c|d"))
          (config_of [(u16 "email", VBoolean true)])
    = Normal (VString (u16 "a***@b.c|d")).
Proof.
  split; [|split; [|split; [|split]]]; try (vm_compute; reflexivity).
  intros prev s m rest H.
  apply match_here_sound in H as [_ Hm]; [|reflexivity].
  exact (email_match_form _ _ _ Hm).
Qed.

(* ================================================================== *)
(** * Further properties of the masking rules *)

(** ** What no masked string contains *)

Lemma active_rules_split (config : value) :
  active_rules config
  = filter (fun entry => not_false (get config (fst entry))) early_rules
    ++ filter (fun entry => not_false (get config (fst entry))) late_rules.
Proof.
  unfold active_rules.
  change PII_PATTERNS with (early_rules ++ late_rules).
  apply filter_app.
Qed.

Lemma late_rules_good (config : value) :
  Forall (fun entry => good_rule (snd entry) = true)
         (filter (fun entry => not_false (get config (fst entry))) late_rules).
Proof.
  apply Forall_forall. intros entry Hin.
  apply filter_In in Hin as [Hin _]. simpl in Hin.
  destruct Hin as [<-|[<-|[<-|[]]]]; reflexivity.
Qed.





(** ** Text that no rule touches *)

Lemma digit_class_mem (cs : class) (u : code_unit) :
  digit_class cs = true -> class_mem cs u = true -> is_digit u = true.
Proof.
  destruct cs as [|[c| | |] [|]]; simpl; try discriminate.
  intros _ H. rewrite orb_false_r in H. exact H.
Qed.

Lemma needs_digit_matches (r : regex) :
  needs_digit r = true ->
  forall prev m next,
    matches r prev m next -> exists u, In u m /\ is_digit u = true.
Proof.
  induction r as [cs| |r1 IH1 r2 IH2|r1 IH1 r2 IH2|r1 IH1|cs min max];
    simpl; intros Hneed prev m next H; try discriminate.
  - destruct H as (x & -> & Hx). exists x. split; [left; reflexivity|].
    exact (digit_class_mem cs x Hneed Hx).
  - destruct H as (m1 & m2 & -> & H1 & H2).
    apply orb_true_iff in Hneed as [Hneed|Hneed].
    + destruct (IH1 Hneed _ _ _ H1) as (u & Hu & Hd).
      exists u. split; [apply in_or_app; left; exact Hu|exact Hd].
    + destruct (IH2 Hneed _ _ _ H2) as (u & Hu & Hd).
      exists u. split; [apply in_or_app; right; exact Hu|exact Hd].
  - apply andb_true_iff in Hneed as [Hneed1 Hneed2].
    destruct H as [H|H]; eauto.
  - apply andb_true_iff in Hneed as [Hmin Hcs].
    destruct min as [|min']; [discriminate Hmin|].
    destruct H as (Hall & Hlen & _).
    destruct m as [|x m]; [simpl in Hlen; lia|].
    exists x. split; [left; reflexivity|].
    exact (digit_class_mem cs x Hcs (Forall_inv Hall)).
Qed.

Lemma needs_digit_clean (r : regex) (prev : option code_unit) (t : jsstring) :
  quantifiers_ok r = true -> needs_digit r = true ->
  Forall (fun u => is_digit u = false) t ->
  clean r prev t.
Proof.
  intros Hq Hneed Hnone v w ->.
  destruct (match_here r (last_of v prev) w) as [[m rest]|] eqn:E;
    [exfalso|reflexivity].
  apply match_here_sound in E as [-> Hm]; [|exact Hq].
  destruct (needs_digit_matches r Hneed _ _ _ Hm) as (u & Hu & Hd).
  assert (Hin : In u (v ++ m ++ rest)).
  { apply in_or_app. right. apply in_or_app. left. exact Hu. }
  apply (proj1 (Forall_forall _ _) Hnone) in Hin. congruence.
Qed.

Lemma registry_needs_digit_or_at (entry : jsstring * rule) :
  In entry PII_PATTERNS ->
  quantifiers_ok (pattern (snd entry)) = true /\
  (needs_digit (pattern (snd entry)) = true \/
   requires (pattern (snd entry)) at_sign = true).
Proof.
  simpl. intros [<-|[<-|[<-|[<-|[<-|[]]]]]]; split; try reflexivity;
    first [left; reflexivity | right; reflexivity].
Qed.

(** X3: a string with no digit and no at sign is returned as it is, under
    every configuration. *)
Theorem plain_text_untouched (config : value) (s : jsstring) :
  config <> VNull ->
  Forall (fun u => is_digit u = false) s -> at_free s ->
  maskPII (VString s) config = Normal (VString s).
Proof.
  intros Hnull Hdigits Hfree.
  rewrite maskPII_gate by exact Hnull.
  destruct (truthy (get config enabled_key)); [|reflexivity].
  change (maskObject (VString s) config) with (maskString (VString s) config).
  rewrite maskString_active. do 2 f_equal.
  apply fold_fixed. intros entry Hin.
  apply filter_In in Hin as [Hin _].
  destruct (registry_needs_digit_or_at entry Hin) as [Hq [Hneed|Hreq]].
  - apply needs_digit_clean; assumption.
  - exact (requires_clean _ _ None s Hq Hreq Hfree).
Qed.

Lemma plain_text_untouched_witness :
  gate_on <> VNull /\
  Forall (fun u => is_digit u = false) (u16 "GET /health returned OK") /\
  at_free (u16 "GET /health returned OK") /\
  maskPII (VString (u16 "GET /health returned OK")) gate_on
  = Normal (VString (u16 "GET /health returned OK")).
Proof.
  assert (Hd : Forall (fun u => is_digit u = false) (u16 "GET /health returned OK"))
    by (each_element; reflexivity).
  assert (Hf : at_free (u16 "GET /health returned OK"))
    by (apply not_existsb_eqb; reflexivity).
  split; [discriminate|]. split; [exact Hd|]. split; [exact Hf|].
  apply (plain_text_untouched gate_on (u16 "GET /health returned OK"));
    [discriminate|exact Hd|exact Hf].
Defined.

(* ================================================================== *)
(** * Properties of the configuration loader *)

(** ** One line of [.env] *)

Lemma dotenv_line_parse (env : environment) (line : jsstring) :
  dotenv_line env line =
  match parse_line line with
  | Some (k, v) => if env_truthy env k then env else setenv env k v
  | None => env
  end.
Proof.
  unfold dotenv_line, parse_line.
  destruct (nonempty (trim line) && negb (startsWith hash (trim line)));
    [|reflexivity].
  destruct (split equals (trim line)) as [|key valueParts]; [reflexivity|].
  destruct (nonempty key); simpl; [|reflexivity].
  destruct (nonempty (join equals valueParts)); simpl; [|reflexivity].
  destruct (env_truthy env key); reflexivity.
Qed.

Lemma parse_line_nonempty (line k v : jsstring) :
  parse_line line = Some (k, v) -> k <> [] /\ v <> [].
Proof.
  unfold parse_line.
  destruct (nonempty (trim line) && negb (startsWith hash (trim line)));
    [|discriminate].
  destruct (split equals (trim line)) as [|key valueParts]; [discriminate|].
  destruct (nonempty key) eqn:Hk; simpl; [|discriminate].
  destruct (nonempty (join equals valueParts)) eqn:Hv; simpl; [|discriminate].
  intros H. injection H as <- <-.
  split; intros E; [rewrite E in Hk|rewrite E in Hv]; discriminate.
Qed.

Lemma jsstring_eqb_refl (a : jsstring) : jsstring_eqb a a = true.
Proof. apply jsstring_eqb_eq. reflexivity. Qed.

Lemma jsstring_eqb_neq (a b : jsstring) : a <> b -> jsstring_eqb a b = false.
Proof.
  intros H. destruct (jsstring_eqb a b) eqn:E; [|reflexivity].
  apply jsstring_eqb_eq in E. contradiction.
Qed.

Lemma setenv_same (env : environment) (k v : jsstring) :
  setenv env k v k = Some v.
Proof. unfold setenv. rewrite jsstring_eqb_refl. reflexivity. Qed.

Lemma setenv_other (env : environment) (k v k' : jsstring) :
  k' <> k -> setenv env k v k' = env k'.
Proof. intros H. unfold setenv. rewrite (jsstring_eqb_neq _ _ H). reflexivity. Qed.

Lemma env_truthy_value (env : environment) (k v : jsstring) :
  env k = Some v -> v <> [] -> env_truthy env k = true.
Proof.
  intros H Hv. unfold env_truthy. rewrite H.
  destruct v; [contradiction|reflexivity].
Qed.

(** A line changes at most the variable it defines, and only when that
    variable is falsy. *)
Lemma dotenv_line_step (env : environment) (line k : jsstring) :
  dotenv_line env line k = env k \/
  (env_truthy env k = false /\
   exists v, parse_line line = Some (k, v) /\ dotenv_line env line k = Some v).
Proof.
  rewrite dotenv_line_parse.
  destruct (parse_line line) as [[k0 v0]|] eqn:Hparse; [|left; reflexivity].
  destruct (env_truthy env k0) eqn:Htruthy; [left; reflexivity|].
  destruct (list_eq_dec N.eq_dec k k0) as [->|Hne].
  - right. split; [exact Htruthy|]. exists v0. split; [reflexivity|].
    apply setenv_same.
  - left. apply setenv_other. exact Hne.
Qed.

Lemma dotenv_line_keeps (env : environment) (line k v : jsstring) :
  env k = Some v -> v <> [] -> dotenv_line env line k = Some v.
Proof.
  intros Hk Hv.
  destruct (dotenv_line_step env line k) as [H|[Hfalse _]].
  - rewrite H. exact Hk.
  - rewrite (env_truthy_value env k v Hk Hv) in Hfalse. discriminate.
Qed.

Lemma dotenv_lines_keep (lines : list jsstring) :
  forall env k v,
    env k = Some v -> v <> [] -> fold_left dotenv_line lines env k = Some v.
Proof.
  induction lines as [|line lines IH]; intros env k v Hk Hv; simpl.
  - exact Hk.
  - apply IH; [|exact Hv]. apply dotenv_line_keeps; assumption.
Qed.

(** ** The whole file *)

Lemma dotenv_lines_fill (all : list jsstring) (env : environment)
    (lines : list jsstring) :
  incl lines all ->
  forall env_i,
    (forall k,
       env_i k = env k \/
       (env_truthy env k = false /\
        exists line v, In line all /\ parse_line line = Some (k, v) /\
                       env_i k = Some v)) ->
    forall k,
      fold_left dotenv_line lines env_i k = env k \/
      (env_truthy env k = false /\
       exists line v, In line all /\ parse_line line = Some (k, v) /\
                      fold_left dotenv_line lines env_i k = Some v).
Proof.
  induction lines as [|line lines IH]; intros Hincl env_i Hinv k; simpl.
  - apply Hinv.
  - apply IH.
    + intros l Hl. apply Hincl. right. exact Hl.
    + clear k. intros k.
      destruct (dotenv_line_step env_i line k) as [Hsame|(Hfalse & v & Hparse & Hset)].
      * rewrite Hsame. apply Hinv.
      * right. destruct (Hinv k) as [Heq|(Hf & line' & v' & _ & Hp' & Hv')].
        -- split.
           ++ unfold env_truthy in Hfalse |- *. rewrite <- Heq. exact Hfalse.
           ++ exists line, v. split; [apply Hincl; left; reflexivity|].
              split; assumption.
        -- exfalso. apply parse_line_nonempty in Hp' as [_ Hne].
           rewrite (env_truthy_value env_i k v' Hv' Hne) in Hfalse.
           discriminate.
Qed.



Lemma dotenv_line_other (env : environment) (line k : jsstring) :
  (forall v, parse_line line <> Some (k, v)) ->
  dotenv_line env line k = env k.
Proof.
  intros Hno.
  destruct (dotenv_line_step env line k) as [H|(_ & v & Hparse & _)];
    [exact H|]. exfalso. exact (Hno v Hparse).
Qed.



(** ** Keys, values and white space *)

Lemma trim_start_spaces (lead x : jsstring) :
  Forall (fun u => is_space u = true) lead ->
  trim_start (lead ++ x) = trim_start x.
Proof.
  induction lead as [|u lead IH]; intros H; simpl; [reflexivity|].
  rewrite (Forall_inv H). apply IH. exact (Forall_inv_tail H).
Qed.

Lemma trim_start_word (u : code_unit) (x : jsstring) :
  is_space u = false -> trim_start (u :: x) = u :: x.
Proof. intros H. simpl. rewrite H. reflexivity. Qed.

Lemma trim_end_spaces (x trail : jsstring) :
  Forall (fun u => is_space u = true) trail ->
  trim_end (x ++ trail) = trim_end x.
Proof.
  intros H. unfold trim_end. rewrite rev_app_distr.
  rewrite trim_start_spaces; [reflexivity|].
  apply Forall_rev. exact H.
Qed.

Lemma trim_end_word (x : jsstring) (u : code_unit) :
  is_space u = false -> trim_end (x ++ [u]) = x ++ [u].
Proof.
  intros H. unfold trim_end. rewrite rev_app_distr. simpl.
  rewrite H. simpl. rewrite rev_involutive. reflexivity.
Qed.

(** White space around a text that begins and ends with other code units
    is all that [trim] removes. *)
Lemma trim_padded (lead trail : jsstring) (u w : code_unit) (x : jsstring) :
  Forall (fun c => is_space c = true) lead ->
  Forall (fun c => is_space c = true) trail ->
  is_space u = false -> is_space w = false ->
  trim (lead ++ (u :: x ++ [w]) ++ trail) = u :: x ++ [w].
Proof.
  intros Hlead Htrail Hu Hw. unfold trim.
  rewrite trim_start_spaces by exact Hlead.
  change ((u :: x ++ [w]) ++ trail) with (u :: (x ++ [w]) ++ trail).
  rewrite trim_start_word by exact Hu.
  change (u :: (x ++ [w]) ++ trail) with ((u :: x ++ [w]) ++ trail).
  rewrite trim_end_spaces by exact Htrail.
  change (u :: x ++ [w]) with ((u :: x) ++ [w]).
  apply trim_end_word. exact Hw.
Qed.

Lemma split_nonempty (sep : code_unit) (s : jsstring) : split sep s <> [].
Proof.
  destruct s as [|u s]; simpl; [discriminate|].
  destruct (u =? sep)%N; [discriminate|].
  destruct (split sep s); discriminate.
Qed.

(** Joining the parts of a split gives the string back. *)
Lemma join_split (sep : code_unit) (s : jsstring) :
  join sep (split sep s) = s.
Proof.
  induction s as [|u s IH]; [reflexivity|].
  simpl split. destruct (u =? sep)%N eqn:E.
  - apply N.eqb_eq in E. subst u.
    pose proof (split_nonempty sep s) as Hne.
    destruct (split sep s) as [|p ps]; [contradiction|].
    change (join sep ([] :: p :: ps)) with ([] ++ sep :: join sep (p :: ps)).
    rewrite IH. reflexivity.
  - pose proof (split_nonempty sep s) as Hne.
    destruct (split sep s) as [|p ps]; [contradiction|].
    destruct ps as [|q ps].
    + simpl in IH |- *. rewrite IH. reflexivity.
    + change (join sep ((u :: p) :: q :: ps))
        with ((u :: p) ++ sep :: join sep (q :: ps)).
      change (join sep (p :: q :: ps)) with (p ++ sep :: join sep (q :: ps)) in IH.
      cbn [app]. rewrite IH. reflexivity.
Qed.



(** ** Loading twice *)

Lemma dotenv_line_truthy (env : environment) (line k : jsstring) :
  env_truthy env k = true -> env_truthy (dotenv_line env line) k = true.
Proof.
  intros H.
  destruct (dotenv_line_step env line k) as [Hsame|[Hfalse _]].
  - unfold env_truthy in H |- *. rewrite Hsame. exact H.
  - rewrite H in Hfalse. discriminate.
Qed.

Lemma dotenv_lines_truthy (lines : list jsstring) :
  forall env k,
    env_truthy env k = true ->
    env_truthy (fold_left dotenv_line lines env) k = true.
Proof.
  induction lines as [|line lines IH]; intros env k H; simpl; [exact H|].
  apply IH, dotenv_line_truthy, H.
Qed.

Lemma dotenv_lines_defined (lines : list jsstring) :
  forall env line k v,
    In line lines -> parse_line line = Some (k, v) ->
    env_truthy (fold_left dotenv_line lines env) k = true.
Proof.
  induction lines as [|l lines IH]; intros env line k v Hin Hparse;
    [contradiction|].
  simpl. destruct Hin as [->|Hin].
  - apply dotenv_lines_truthy.
    rewrite dotenv_line_parse, Hparse.
    destruct (env_truthy env k) eqn:E; [exact E|].
    apply (env_truthy_value _ k v); [apply setenv_same|].
    exact (proj2 (parse_line_nonempty _ _ _ Hparse)).
  - exact (IH _ line k v Hin Hparse).
Qed.

Lemma dotenv_lines_settled (lines : list jsstring) (env : environment) :
  (forall line k v,
     In line lines -> parse_line line = Some (k, v) -> env_truthy env k = true) ->
  fold_left dotenv_line lines env = env.
Proof.
  induction lines as [|l lines IH]; intros H; simpl; [reflexivity|].
  assert (Hl : dotenv_line env l = env).
  { rewrite dotenv_line_parse.
    destruct (parse_line l) as [[k v]|] eqn:Hparse; [|reflexivity].
    rewrite (H l k v (or_introl eq_refl) Hparse). reflexivity. }
  rewrite Hl. apply IH. intros line k v Hin. apply H. right. exact Hin.
Qed.

(** X7: loading the same [.env] again changes nothing, so the two calls of
    [loadConfig] that starting the server makes, one through [getConfig]
    and one in [createElasticsearchClient], give the same configuration. *)
Theorem loadConfig_twice (file : dotenv_file) (env env' : environment)
    (config : value) :
  loadConfig file env = Returns (config, env') ->
  loadConfig file env' = Returns (config, env').
Proof.
  unfold loadConfig. destruct file as [| |content]; simpl.
  - intros H. injection H as <- <-. reflexivity.
  - discriminate.
  - intros H. injection H as <- <-.
    rewrite dotenv_lines_settled; [reflexivity|].
    intros line k v. apply dotenv_lines_defined.
Qed.

Lemma loadConfig_twice_witness :
  exists config env',
    loadConfig (File sample_dotenv) sample_env = Returns (config, env') /\
    loadConfig (File sample_dotenv) env' = Returns (config, env').
Proof.
  eexists. eexists. split; [reflexivity|].
  apply (loadConfig_twice (File sample_dotenv) sample_env). reflexivity.
Defined.

(** ** The masking configuration *)

Lemma loadConfig_returns (file : dotenv_file) (env env' : environment)
    (config : value) :
  loadConfig file env = Returns (config, env') -> config = config_object env'.
Proof.
  unfold loadConfig. destruct (load_dotenv file env); [|discriminate].
  intros H. injection H as <- <-. reflexivity.
Qed.

Lemma env_is_iff (env : environment) (k text : jsstring) :
  env_is env k text = true <-> env k = Some text.
Proof.
  unfold env_is. destruct (env k) as [s|].
  - rewrite jsstring_eqb_eq. split; congruence.
  - split; discriminate.
Qed.

Lemma piiMaskingConfig_gate (env : environment) (v : value) :
  maskPII v (piiMaskingConfig env)
  = if env_is env masking_variable (u16 "true")
    then Normal (maskObject v (piiMaskingConfig env)) else Normal v.
Proof.
  rewrite maskPII_gate by discriminate. reflexivity.
Qed.

(** X8: the configuration that [loadConfig] hands to [maskPII] never makes
    it throw, and masking takes place exactly when [PII_MASKING_ENABLED] is
    the string [true]: with any other value, or none, every result is
    returned as it came. *)
Theorem loadConfig_masking_gate (file : dotenv_file) (env env' : environment)
    (config v : value) :
  loadConfig file env = Returns (config, env') ->
  (env' masking_variable = Some (u16 "true") ->
   maskPII v (get config piiMasking_key)
   = Normal (maskObject v (get config piiMasking_key))) /\
  (env' masking_variable <> Some (u16 "true") ->
   maskPII v (get config piiMasking_key) = Normal v).
Proof.
  intros H. apply loadConfig_returns in H. subst config.
  change (get (config_object env') piiMasking_key) with (piiMaskingConfig env').
  rewrite piiMaskingConfig_gate.
  split; intros Hvar.
  - rewrite (proj2 (env_is_iff _ _ _) Hvar). reflexivity.
  - destruct (env_is env' masking_variable (u16 "true")) eqn:E; [|reflexivity].
    apply env_is_iff in E. contradiction.
Qed.

Lemma loadConfig_masking_gate_witness :
  maskPII (VString (u16 "john.doe@example.com"))
          (get (config_object sample_env) piiMasking_key)
  = Normal (VString (u16 "john.doe@example.com")).
Proof.
  apply (proj2 (loadConfig_masking_gate NoFile sample_env sample_env
                  (config_object sample_env)
                  (VString (u16 "john.doe@example.com")) eq_refl)).
  discriminate.
Defined.



(** X10: the node, the index pattern and the correlation field of the
    configuration are never empty: an unset or empty variable gives way to
    the default. *)
Theorem loadConfig_defaults (file : dotenv_file) (env env' : environment)
    (config : value) (k : jsstring) :
  loadConfig file env = Returns (config, env') ->
  In k [u16 "node"; u16 "indexPattern"; u16 "correlationIdField"] ->
  exists u s, get config k = VString (u :: s).
Proof.
  intros H Hin. apply loadConfig_returns in H. subst config.
  assert (Hor : forall name fallback,
             fallback <> [] ->
             exists u s, env_or env' name fallback = VString (u :: s)).
  { intros name fallback Hne. unfold env_or.
    destruct (env' name) as [[|u s]|]; eauto;
      destruct fallback as [|u s]; try contradiction; eauto. }
  simpl in Hin. destruct Hin as [<-|[<-|[<-|[]]]].
  - apply (Hor (u16 "ELASTICSEARCH_NODE")). discriminate.
  - apply (Hor (u16 "ELASTICSEARCH_INDEX_PATTERN")). discriminate.
  - apply (Hor (u16 "CORRELATION_ID_FIELD")). discriminate.
Qed.

Lemma loadConfig_defaults_witness :
  exists u s, get (config_object sample_env) (u16 "indexPattern") = VString (u :: s).
Proof.
  apply (loadConfig_defaults NoFile sample_env sample_env
           (config_object sample_env) (u16 "indexPattern") eq_refl).
  right. left. reflexivity.
Defined.

(* ================================================================== *)
(** * Properties of the tools *)

Lemma read_returns (o : value) (k : jsstring) (v : value) :
  read o k = Returns v -> v = get o k.
Proof.
  destruct o; simpl; intros H; try discriminate; injection H as <-; reflexivity.
Qed.

Lemma hit_view_returns (hit view : value) :
  hit_view hit = Returns view -> view = hit_fields (fun v => v) hit.
Proof.
  unfold hit_view, hit_fields.
  destruct hit; simpl; intros H; try discriminate; injection H as <-;
    reflexivity.
Qed.

Lemma map_outcome_returns (hits views : list value) :
  map_outcome hit_view hits = Returns views ->
  views = map (hit_fields (fun v => v)) hits.
Proof.
  revert views; induction hits as [|hit hits IH]; intros views; simpl.
  - intros H. injection H as <-. reflexivity.
  - destruct (hit_view hit) as [view|] eqn:Hview; simpl; [|discriminate].
    destruct (map_outcome hit_view hits) as [views'|]; simpl; [|discriminate].
    intros H. injection H as <-.
    rewrite (hit_view_returns _ _ Hview), (IH views' eq_refl). reflexivity.
Qed.

Lemma search_result_returns (response result : value) :
  search_result response = Returns result ->
  exists hits,
    get (get response (u16 "hits")) (u16 "hits") = VArray hits /\
    result = search_fields (fun v => v) response hits.
Proof.
  unfold search_result.
  destruct (read response (u16 "hits")) as [hits|] eqn:H1; simpl; [|discriminate].
  apply read_returns in H1. subst hits.
  destruct (read (get response (u16 "hits")) (u16 "total")) as [total|] eqn:H2;
    simpl; [|discriminate].
  apply read_returns in H2. subst total.
  destruct (read (get (get response (u16 "hits")) (u16 "total")) (u16 "value"))
    as [tv|] eqn:H3; simpl; [|discriminate].
  apply read_returns in H3. subst tv.
  destruct (read (get response (u16 "hits")) (u16 "hits")) as [hh|] eqn:H4;
    simpl; [|discriminate].
  apply read_returns in H4. subst hh.
  destruct (get (get response (u16 "hits")) (u16 "hits")) as [| | | | | | |hits|];
    simpl; try discriminate.
  destruct (map_outcome hit_view hits) as [views|] eqn:Hviews; simpl;
    [|discriminate].
  intros H. injection H as <-. exists hits. split; [reflexivity|].
  rewrite (map_outcome_returns _ _ Hviews). reflexivity.
Qed.

Lemma mask_result_returns (config result masked : value) :
  mask_result config result = Returns masked ->
  masked = field_mask (get config piiMasking_key) result.
Proof.
  unfold mask_result.
  destruct (read config (u16 "piiMasking")) as [pm|] eqn:Hread; simpl;
    [|discriminate].
  apply read_returns in Hread. subst pm. fold piiMasking_key.
  destruct (maskPII result (get config piiMasking_key)) as [w|[]] eqn:Hmask;
    [|discriminate].
  intros H. injection H as <-.
  assert (Hnull : get config piiMasking_key <> VNull).
  { intros E. rewrite E in Hmask. discriminate Hmask. }
  rewrite maskPII_gate in Hmask by exact Hnull.
  unfold field_mask.
  destruct (truthy (get (get config piiMasking_key) enabled_key));
    injection Hmask as <-; reflexivity.
Qed.

Lemma maskObject_hit_fields (piiMasking hit : value) :
  maskObject (hit_fields (fun v => v) hit) piiMasking
  = hit_fields (fun v => maskObject v piiMasking) hit.
Proof.
  unfold hit_fields. rewrite maskObject_object.
  - reflexivity.
  - each_element; reflexivity.
  - reflexivity.
Qed.

Lemma field_mask_search_fields (piiMasking response : value) (hits : list value) :
  field_mask piiMasking (search_fields (fun v => v) response hits)
  = search_fields (field_mask piiMasking) response hits.
Proof.
  unfold field_mask.
  destruct (truthy (get piiMasking enabled_key)); [|reflexivity].
  unfold search_fields. rewrite maskObject_object.
  - unfold map_values. simpl map. cbn [fst snd].
    do 4 f_equal. simpl maskObject. f_equal. rewrite map_map.
    apply map_ext. intros hit. apply maskObject_hit_fields.
  - each_element; reflexivity.
  - reflexivity.
Qed.

(** X11: when [searchByCorrelationId] (and [customSearch], which treats the
    response alike) returns, the answer has the fields [total] and [hits],
    [hits] has one entry per hit of the response, in the same order, and
    every entry has the fields [index], [id], [score] and [source]; with
    masking on each of these fields went through [maskObject], so that a
    document id or an index name is masked like any other string. *)
Theorem search_answer_fields (config response answer : value) :
  searchByCorrelationId config (Returns response) = Returns answer ->
  customSearch config (Returns response) = Returns answer /\
  exists hits,
    get (get response (u16 "hits")) (u16 "hits") = VArray hits /\
    answer = search_fields (field_mask (get config piiMasking_key)) response hits.
Proof.
  intros H. split; [exact H|].
  unfold searchByCorrelationId in H. simpl bind in H.
  destruct (search_result response) as [result|] eqn:Hresult; simpl in H;
    [|discriminate].
  destruct (mask_result config result) as [masked|] eqn:Hmask; [|discriminate].
  injection H as <-.
  destruct (search_result_returns _ _ Hresult) as (hits & Hhits & ->).
  exists hits. split; [exact Hhits|].
  rewrite (mask_result_returns _ _ _ Hmask).
  apply field_mask_search_fields.
Qed.

Lemma search_answer_fields_witness :
  searchByCorrelationId (config_object masking_env) (Returns sample_response)
    = Returns sample_answer /\
  customSearch (config_object masking_env) (Returns sample_response)
    = Returns sample_answer.
Proof.
  assert (H : searchByCorrelationId (config_object masking_env)
                (Returns sample_response) = Returns sample_answer)
    by (vm_compute; reflexivity).
  split; [exact H|].
  exact (proj1 (search_answer_fields (config_object masking_env)
                  sample_response sample_answer H)).
Defined.

(** X12: unless [PII_MASKING_ENABLED] is the string [true], the search
    tools return the result built from the response without any masking:
    what [loadConfig] read decides what [searchByCorrelationId] returns. *)
Theorem search_unmasked_unless_enabled (file : dotenv_file)
    (env env' : environment) (config response : value) :
  loadConfig file env = Returns (config, env') ->
  env' masking_variable <> Some (u16 "true") ->
  searchByCorrelationId config (Returns response)
  = match search_result response with
    | Returns result => Returns result
    | Throws _ => Throws (ToolError search_failed)
    end.
Proof.
  intros Hload Hvar.
  unfold searchByCorrelationId. simpl bind.
  destruct (search_result response) as [result|]; simpl; [|reflexivity].
  unfold mask_result.
  pose proof (loadConfig_returns _ _ _ _ Hload) as Hconfig.
  assert (Hread : read config (u16 "piiMasking")
                  = Returns (get config piiMasking_key))
    by (rewrite Hconfig; reflexivity).
  rewrite Hread. simpl bind.
  rewrite Hconfig.
  change (get (config_object env') piiMasking_key) with (piiMaskingConfig env').
  rewrite piiMaskingConfig_gate.
  destruct (env_is env' masking_variable (u16 "true")) eqn:E; [|reflexivity].
  apply env_is_iff in E. contradiction.
Qed.

Lemma search_unmasked_unless_enabled_witness :
  searchByCorrelationId (config_object sample_env) (Returns sample_response)
  = Returns (search_fields (fun v => v) sample_response [sample_hit]).
Proof.
  rewrite (search_unmasked_unless_enabled NoFile sample_env sample_env
             (config_object sample_env) sample_response eq_refl).
  - reflexivity.
  - discriminate.
Defined.

Lemma field_mask_leaf (piiMasking v : value) :
  is_object v = false -> typeof v <> TString -> field_mask piiMasking v = v.
Proof.
  intros Hobj Hstr. unfold field_mask.
  destruct (truthy (get piiMasking enabled_key)); [|reflexivity].
  destruct v; try reflexivity; try discriminate Hobj.
  exfalso. apply Hstr. reflexivity.
Qed.

Lemma field_mask_document_fields (piiMasking response : value) :
  field_mask piiMasking (document_fields (fun v => v) response)
  = document_fields (field_mask piiMasking) response.
Proof.
  unfold field_mask.
  destruct (truthy (get piiMasking enabled_key)); [|reflexivity].
  unfold document_fields. rewrite maskObject_object.
  - reflexivity.
  - each_element; reflexivity.
  - reflexivity.
Qed.

Lemma document_result_returns (response result : value) :
  document_result response = Returns result ->
  result = document_fields (fun v => v) response.
Proof.
  unfold document_result, document_fields.
  destruct response; simpl; intros H; try discriminate; injection H as <-;
    reflexivity.
Qed.

(** X13: when the client answers and [getDocument] returns, the answer has
    the fields [index], [id], [found] and [source], each passed through the
    masking; a boolean [found] comes out as it went in.  A 404 of the
    client is answered with [{found: false, error: 'Document not found'}],
    which is not masked. *)
Theorem document_answer_fields (config response answer : value) :
  getDocument config (Returns response) = Returns answer ->
  answer = document_fields (field_mask (get config piiMasking_key)) response /\
  (forall b, get response (u16 "found") = VBoolean b ->
             get answer (u16 "found") = VBoolean b) /\
  getDocument config (Throws (ResponseError (Some 404%N))) = Returns not_found.
Proof.
  intros H. unfold getDocument in H. simpl bind in H.
  destruct (document_result response) as [result|] eqn:Hresult; simpl in H.
  - destruct (mask_result config result) as [masked|e] eqn:Hmask.
    + injection H as <-.
      rewrite (mask_result_returns _ _ _ Hmask).
      rewrite (document_result_returns _ _ Hresult).
      rewrite field_mask_document_fields.
      split; [reflexivity|]. split; [|reflexivity].
      intros b Hb. unfold document_fields. simpl get. rewrite Hb.
      apply field_mask_leaf; [reflexivity|discriminate].
    + unfold mask_result in Hmask.
      destruct (read config (u16 "piiMasking")) as [pm|] eqn:Hread; simpl in Hmask.
      * destruct (maskPII result pm) as [w|[]]; [discriminate Hmask|].
        injection Hmask as <-. discriminate H.
      * destruct config; simpl in Hread; try discriminate Hread;
          injection Hread as <-; injection Hmask as <-; discriminate H.
  - destruct response; simpl in Hresult; try discriminate Hresult;
      injection Hresult as <-; discriminate H.
Qed.

Lemma document_answer_fields_witness :
  exists answer,
    getDocument (config_object masking_env) (Returns sample_document)
      = Returns answer /\
    get answer (u16 "found") = VBoolean true /\
    get (get answer (u16 "source")) (u16 "cpr") = VString (u16 "******-****").
Proof.
  eexists. split; [vm_compute; reflexivity|].
  split.
  - apply (proj1 (proj2 (document_answer_fields (config_object masking_env)
                          sample_document _ eq_refl))).
    reflexivity.
  - vm_compute. reflexivity.
Defined.

(** ** A CPR number in plain text *)

Lemma app_same_length (A : Type) (a a' x y : list A) :
  a ++ x = a' ++ y -> length a = length a' -> a = a' /\ x = y.
Proof.
  revert a'. induction a as [|u a IH]; intros [|u' a'] H Hlen;
    simpl in *; try discriminate; [auto|].
  injection H as <- H. destruct (IH a' H) as [<- <-]; [lia|]. auto.
Qed.

Lemma last_in (m : jsstring) (u : code_unit) : In (last m u) (u :: m).
Proof.
  revert u. induction m as [|v m IH]; intros u; [left; reflexivity|].
  right. destruct m as [|w m]; [left; reflexivity|].
  change (last (v :: w :: m) u) with (last (w :: m) u).
  rewrite (last_nonempty m w u v). apply (IH v).
Qed.

(** The matches of the CPR pattern: six digits, a hyphen or nothing, four
    digits, with no word character before or after. *)
Lemma cpr_match_form (prev : option code_unit) (m : jsstring)
    (next : option code_unit) :
  matches (pattern cpr) prev m next ->
  exists a sep b,
    m = a ++ sep ++ b /\
    Forall (fun u => is_digit u = true) a /\ length a = 6 /\
    (sep = [] \/ sep = u16 "-") /\
    Forall (fun u => is_digit u = true) b /\ length b = 4.
Proof.
  simpl. intros (m0 & r0 & -> & [-> _] & a & r1 & -> & Ha & sep & r2 & -> &
                 Hsep & b & m4 & -> & Hb & [-> _]).
  exists a, sep, b. rewrite app_nil_r. simpl.
  destruct Ha as (Ha & Hla & Hla'). destruct Hb as (Hb & Hlb & Hlb').
  simpl in Hla', Hlb'.
  assert (Hdigit : forall l, Forall (fun u => class_mem [Digit] u = true) l ->
                             Forall (fun u => is_digit u = true) l).
  { intros l. apply Forall_impl. simpl. intros u Hu.
    rewrite orb_false_r in Hu. exact Hu. }
  split; [reflexivity|]. split; [auto|]. split; [lia|].
  split; [|split; [auto|lia]].
  destruct Hsep as [->|(u & -> & Hu)]; [left; reflexivity|right].
  apply (singleton_class "-" u) in Hu. rewrite Hu. reflexivity.
Qed.

Lemma cpr_leading_digit (prev : option code_unit) (u : code_unit)
    (s : jsstring) :
  is_digit u = false -> match_here (pattern cpr) prev (u :: s) = None.
Proof.
  intros Hu.
  destruct (match_here (pattern cpr) prev (u :: s)) as [[m rest]|] eqn:E;
    [exfalso|reflexivity].
  apply match_here_sound in E as [Heq Hm]; [|reflexivity].
  apply cpr_match_form in Hm as (a & sep & b & -> & Ha & Hla & _).
  destruct a as [|x a]; [discriminate Hla|].
  simpl in Heq. injection Heq as -> _.
  apply Forall_inv in Ha. congruence.
Qed.

(** The scan keeps a stretch of text in which no match can start. *)
Lemma scan_keep_prefix (r : regex) :
  (forall prev u s, is_digit u = false -> match_here r prev (u :: s) = None) ->
  forall pre fuel prev rest,
    Forall (fun u => is_digit u = false) pre ->
    scan (length pre + fuel) r prev (pre ++ rest)
    = map Keep pre ++ scan fuel r (last_of pre prev) rest.
Proof.
  intros Hlead. induction pre as [|u pre IH]; intros fuel prev rest Hpre.
  - reflexivity.
  - cbn [length Nat.add app scan map].
    rewrite (Hlead prev u (pre ++ rest) (Forall_inv Hpre)).
    rewrite (IH fuel (Some u) rest (Forall_inv_tail Hpre)).
    rewrite last_of_cons. reflexivity.
Qed.

(** Where a CPR number stands, the match is the number. *)
Lemma cpr_match_here (prev : option code_unit) (a sep b post : jsstring) :
  Forall (fun u => is_digit u = true) a -> length a = 6 ->
  sep = [] \/ sep = u16 "-" ->
  Forall (fun u => is_digit u = true) b -> length b = 4 ->
  word_at prev = false -> word_at (hd_error post) = false ->
  match_here (pattern cpr) prev ((a ++ sep ++ b) ++ post)
  = Some (a ++ sep ++ b, post).
Proof.
  intros Ha Hla Hsep Hb Hlb Hprev Hnext.
  assert (Hm : matches (pattern cpr) prev (a ++ sep ++ b) (hd_error post)).
  { destruct a as [|a0 a']; [discriminate Hla|].
    destruct b as [|b0 b']; [discriminate Hlb|].
    pose proof (digit_is_word _ (Forall_inv Ha)) as Ha0.
    assert (Hlast : is_word (last b' b0) = true).
    { apply digit_is_word.
      apply (proj1 (Forall_forall _ _) Hb). apply last_in. }
    cbn [pattern cpr matches].
    exists [], ((a0 :: a') ++ sep ++ b0 :: b'). split; [reflexivity|]. split.
    { split; [reflexivity|]. cbn [first_of app word_at].
      rewrite Hprev, Ha0. reflexivity. }
    exists (a0 :: a'), (sep ++ b0 :: b'). split; [reflexivity|]. split.
    { apply digits_match; assumption. }
    exists sep, (b0 :: b'). split; [reflexivity|]. split.
    { destruct Hsep as [-> | ->]; [left; reflexivity|right].
      exists (cu "-"). split; reflexivity. }
    exists (b0 :: b'), []. split; [rewrite app_nil_r; reflexivity|]. split.
    { apply digits_match; assumption. }
    split; [reflexivity|].
    cbn [last_of word_at]. rewrite Hlast, Hnext. reflexivity. }
  pose proof (match_here_complete _ _ _ _ Hm) as Hsome.
  destruct (match_here (pattern cpr) prev ((a ++ sep ++ b) ++ post))
    as [[m rest]|] eqn:E; [|congruence].
  apply match_here_sound in E as [Heq Hm']; [|reflexivity].
  apply cpr_match_form in Hm' as (a' & sep' & b' & -> & Ha' & Hla' & Hsep' &
                                  Hb' & Hlb').
  rewrite <- !app_assoc in Heq.
  apply app_same_length in Heq as [<- Heq]; [|congruence].
  assert (Hsame : sep' = sep /\ b' ++ rest = b ++ post).
  { destruct b as [|b0 b]; [discriminate Hlb|].
    destruct b' as [|b0' b']; [discriminate Hlb'|].
    apply Forall_inv in Hb. apply Forall_inv in Hb'.
    destruct Hsep as [-> | ->], Hsep' as [-> | ->]; simpl in Heq.
    - split; [reflexivity|symmetry; exact Heq].
    - injection Heq as -> _. discriminate Hb.
    - injection Heq as <- _. discriminate Hb'.
    - injection Heq as H0 Htail. split; [reflexivity|].
      simpl. rewrite H0, Htail. reflexivity. }
  destruct Hsame as [-> Heq'].
  apply app_same_length in Heq' as [-> ->]; [|congruence].
  reflexivity.
Qed.

Lemma cpr_replaced (pre a sep b post : jsstring) :
  Forall (fun u => is_digit u = true) a -> length a = 6 ->
  sep = [] \/ sep = u16 "-" ->
  Forall (fun u => is_digit u = true) b -> length b = 4 ->
  Forall (fun u => is_digit u = false) pre ->
  Forall (fun u => is_digit u = false) post ->
  word_at (last_of pre None) = false -> word_at (hd_error post) = false ->
  replace (pattern cpr) (replacement cpr) (pre ++ (a ++ sep ++ b) ++ post)
  = pre ++ u16 "******-****" ++ post.
Proof.
  intros Ha Hla Hsep Hb Hlb Hpre Hpost Hprev Hnext.
  unfold replace.
  replace (S (length (pre ++ (a ++ sep ++ b) ++ post)))
    with (length pre + S (length ((a ++ sep ++ b) ++ post)))
    by (rewrite (length_app pre); lia).
  rewrite (scan_keep_prefix (pattern cpr) cpr_leading_digit) by exact Hpre.
  cbn [scan].
  rewrite (cpr_match_here (last_of pre None) a sep b post) by assumption.
  destruct (a ++ sep ++ b) as [|u m] eqn:Hnumber.
  { destruct a; [discriminate Hla|discriminate Hnumber]. }
  rewrite (scan_clean (pattern cpr)).
  - rewrite flat_map_app, render_keep. cbn [flat_map render].
    rewrite render_keep. reflexivity.
  - apply needs_digit_clean; [reflexivity|reflexivity|exact Hpost].
Qed.



(** X15: the masking configuration that [loadConfig] builds is the one
    [getDefaultMaskingConfig] returns exactly when [PII_MASKING_ENABLED] is
    not the string [true] and none of the five rule variables is the string
    [false]. *)
Theorem loadConfig_default_masking (file : dotenv_file)
    (env env' : environment) (config : value) :
  loadConfig file env = Returns (config, env') ->
  (get config piiMasking_key = getDefaultMaskingConfig <->
   env' masking_variable <> Some (u16 "true") /\
   forall entry, In entry PII_PATTERNS ->
                 env' (flag_variable (fst entry)) <> Some (u16 "false")).
Proof.
  intros H. apply loadConfig_returns in H. subst config.
  change (get (config_object env') piiMasking_key) with (piiMaskingConfig env').
  unfold piiMaskingConfig, getDefaultMaskingConfig. split.
  - intros Heq. injection Heq as Hon Hcpr Hemail Hphone Hcard Hssn.
    split.
    + intros Hvar. apply env_is_iff in Hvar.
      unfold masking_variable in Hvar. rewrite Hvar in Hon. discriminate Hon.
    + intros entry Hin Hvar. apply env_is_iff in Hvar.
      simpl in Hin. destruct Hin as [<-|[<-|[<-|[<-|[<-|[]]]]]];
        cbv [fst flag_variable] in Hvar; simpl in Hvar;
        rewrite Hvar in *; discriminate.
  - intros [Hon Hflags].
    assert (Hoff : env_is env' (u16 "PII_MASKING_ENABLED") (u16 "true") = false).
    { destruct (env_is env' (u16 "PII_MASKING_ENABLED") (u16 "true")) eqn:E;
        [|reflexivity].
      apply env_is_iff in E. contradiction. }
    assert (Hflag : forall entry, In entry PII_PATTERNS ->
              env_is env' (flag_variable (fst entry)) (u16 "false") = false).
    { intros entry Hin.
      destruct (env_is env' (flag_variable (fst entry)) (u16 "false")) eqn:E;
        [|reflexivity].
      apply env_is_iff in E. exfalso. exact (Hflags entry Hin E). }
    assert (H1 : env_is env' (u16 "PII_MASK_CPR") (u16 "false") = false)
      by (apply (Hflag (u16 "cpr", cpr)); simpl; tauto).
    assert (H2 : env_is env' (u16 "PII_MASK_EMAIL") (u16 "false") = false)
      by (apply (Hflag (u16 "email", email)); simpl; tauto).
    assert (H3 : env_is env' (u16 "PII_MASK_PHONE") (u16 "false") = false)
      by (apply (Hflag (u16 "phone", phone)); simpl; tauto).
    assert (H4 : env_is env' (u16 "PII_MASK_CREDIT_CARD") (u16 "false") = false)
      by (apply (Hflag (u16 "creditCard", creditCard)); simpl; tauto).
    assert (H5 : env_is env' (u16 "PII_MASK_SSN") (u16 "false") = false)
      by (apply (Hflag (u16 "ssn", ssn)); simpl; tauto).
    rewrite Hoff, H1, H2, H3, H4, H5.
    reflexivity.
Qed.

Lemma loadConfig_default_masking_witness :
  get (config_object empty_env) piiMasking_key = getDefaultMaskingConfig.
Proof.
  apply (proj2 (loadConfig_default_masking NoFile empty_env empty_env
                  (config_object empty_env) eq_refl)).
  split; [discriminate|]. intros entry _. discriminate.
Defined.
